(** * Hash tables with four collision-resolution strategies

    A shallow embedding of [hashing_app/hashing_algorithms.py]: the abstract
    [HashTable] class and its four subclasses [ChainingHashTable],
    [LinearProbingHashTable], [QuadraticProbingHashTable] and
    [DoubleHashingHashTable], over a model of the two Django tables
    [HashTableSlot] and [ChainedElement] of [hashing_app/models.py].

    Conventions of the embedding:
    - Python integers are [Z]; [a % b] is [Z.modulo] (both round towards
      minus infinity and take the sign of the divisor) and raises
      [ZeroDivisionError] when [b = 0];
    - keys and values are strings ([CharField] / [TextField]); a nullable
      column is an [option]; a query on [key_value] finds the rows whose key
      is the same string, as [==] does in Python;
    - Python's builtin [hash] is a parameter (class [Hash]): it is only known
      to be a function of the key within one process;
    - every query of a table object filters on its own [algorithm_type], so
      the store seen by one table object is the finite map from [slot_index]
      to the row of that algorithm ([unique_together] makes it a map); the
      [ChainedElement] rows of a slot are kept with the slot, in the order of
      their creation;
    - a method is a computation in the monad [M]: it reads and writes the
      object [self] and the store, and either returns or raises. *)

From stdpp Require Import base gmap list strings sorting.
From Stdlib Require Import ZArith Lia.

Local Open Scope Z_scope.

(** ** Rows of the store *)

(** [models.ChainedElement]: key and value are not nullable. *)
Module ChainedElement.
Record t : Type := Build
  { key_value : string;
    actual_value : string }.
End ChainedElement.

(** [models.HashTableSlot]: [key_value] and [actual_value] are nullable;
    [chained_elements] is the reverse side of the foreign key of
    [ChainedElement] ([related_name='chained_elements']). *)
Module HashTableSlot.
Record t : Type := Build
  { key_value : option string;
    actual_value : option string;
    chained_elements : list ChainedElement.t }.
End HashTableSlot.

(** The rows of [HashTableSlot] of one algorithm, by [slot_index]. *)
Abbreviation DB := (gmap Z HashTableSlot.t).

(** ** The table object and the monad of its methods *)

(** The attributes set by [HashTable.__init__]. *)
Record HashTable : Type := Build_HashTable
  { size : Z;
    algorithm_type : string;
    collisions_count : Z;
    probes_count : Z }.

(** The exceptions the methods can raise. [TableFull] is the
    [Exception("Tabla hash llena. ...")] of the three probing inserts. *)
Inductive exn : Type :=
  | TableFull
  | ZeroDivisionError
  | HashTableSlot_DoesNotExist
  | ChainedElement_DoesNotExist
  | ChainedElement_MultipleObjectsReturned.

Global Instance exn_eq_dec : EqDecision exn.
Proof. solve_decision. Defined.

Inductive outcome (A : Type) : Type :=
  | Returns (a : A)
  | Raises (e : exn).
Global Arguments Returns {A} a.
Global Arguments Raises {A} e.

(** What a method sees and changes: [self] and the store. *)
Definition world : Type := HashTable * DB.

Definition M (A : Type) : Type := world → outcome A * world.

Global Instance M_ret : MRet M := λ A a w, (Returns a, w).
Global Instance M_bind : MBind M := λ A B f m w,
  match m w with
  | (Returns a, w') => f a w'
  | (Raises e, w') => (Raises e, w')
  end.

Definition raise {A : Type} (e : exn) : M A := λ w, (Raises e, w).

(** [try: m except e: h]. *)
Definition try_except {A : Type} (m : M A) (e : exn) (h : M A) : M A := λ w,
  match m w with
  | (Raises e', w') => if decide (e' = e) then h w' else (Raises e', w')
  | r => r
  end.

Definition get_self : M HashTable := λ w, (Returns w.1, w).
Definition get_db : M DB := λ w, (Returns w.2, w).
Definition put_self (self : HashTable) : M unit := λ w, (Returns tt, (self, w.2)).
Definition put_db (db : DB) : M unit := λ w, (Returns tt, (w.1, db)).

(** [self.collisions_count += n] and [self.probes_count += n]. *)
Definition add_collisions (n : Z) : M unit :=
  self ← get_self;
  put_self (Build_HashTable (size self) (algorithm_type self)
              (collisions_count self + n) (probes_count self)).

Definition add_probes (n : Z) : M unit :=
  self ← get_self;
  put_self (Build_HashTable (size self) (algorithm_type self)
              (collisions_count self) (probes_count self + n)).

(** [a % b]. *)
Definition py_mod (a b : Z) : M Z :=
  if decide (b = 0) then raise ZeroDivisionError else mret (a `mod` b).

(** [range(n)]: empty when [n <= 0]. *)
Definition range (n : Z) : list Z := seqZ 0 n.

(** A [for] loop whose body may [return]: the body says whether the loop goes
    on or the method returns; [orelse] is the code after the loop. *)
Inductive flow (R : Type) : Type :=
  | Next
  | Return (r : R).
Global Arguments Next {R}.
Global Arguments Return {R} r.

Fixpoint for_in {X R : Type} (l : list X) (body : X → M (flow R))
    (orelse : M R) : M R :=
  match l with
  | [] => orelse
  | i :: l' =>
      c ← body i;
      match c with
      | Return r => mret r
      | Next => for_in l' body orelse
      end
  end.

(** ** The ORM calls on [HashTableSlot] *)

(** The row [get_or_create] makes: [defaults] of [_initialize_table_slots],
    and the column defaults ([null]) in [ChainingHashTable.insert]. *)
Definition empty_slot : HashTableSlot.t :=
  HashTableSlot.Build None None [].

(** [HashTableSlot.objects.get(algorithm_type=..., slot_index=index)]. *)
Definition objects_get (index : Z) : M HashTableSlot.t :=
  db ← get_db;
  match db !! index with
  | Some slot => mret slot
  | None => raise HashTableSlot_DoesNotExist
  end.

(** [HashTableSlot.objects.get_or_create(algorithm_type=..., slot_index=index)]:
    the row and whether it was created. *)
Definition objects_get_or_create (index : Z) : M (HashTableSlot.t * bool) :=
  db ← get_db;
  match db !! index with
  | Some slot => mret (slot, false)
  | None => put_db (<[index := empty_slot]> db);; mret (empty_slot, true)
  end.

(** [slot.save()] for the row of index [index]. *)
Definition save (index : Z) (slot : HashTableSlot.t) : M unit :=
  db ← get_db;
  put_db (<[index := slot]> db).

(** [HashTableSlot.objects.filter(algorithm_type=...).order_by('slot_index')]. *)
Definition slot_indices (db : DB) : list Z :=
  merge_sort Z.le (elements (dom db)).

Definition objects_ordered (db : DB) : list HashTableSlot.t :=
  omap (λ i, db !! i) (slot_indices db).

(** ** class HashTable *)

(** [reset_stats]. *)
Definition reset_stats : M unit :=
  self ← get_self;
  put_self (Build_HashTable (size self) (algorithm_type self) 0 0).

(** [_initialize_table_slots]. *)
Definition _initialize_table_slots : M unit :=
  self ← get_self;
  for_in (range (size self))
    (λ i, objects_get_or_create i;; mret Next)
    (mret tt).

(** [HashTable.__init__(self, size, algorithm_type)], run on the store [db]:
    the new object and the store it leaves. *)
Definition __init__ (size : Z) (algorithm_type : string) (db : DB)
    : outcome unit * world :=
  _initialize_table_slots (Build_HashTable size algorithm_type 0 0, db).

(** An element of ["table"] in the dictionary of [get_state]: for chaining
    the list of the [{'key', 'value'}] of the slot, for the others one
    [{'key', 'value'}] or [None]. *)
Inductive table_entry : Type :=
  | Chained (items : list (string * string))
  | Probed (item : option (option string * option string)).

Record state_dict : Type := Build_state_dict
  { sd_size : Z;
    sd_table : list table_entry;
    sd_collisions_count : Z;
    sd_probes_count : Z;
    sd_algorithm : string }.

(** Truth value of [slot.key_value]: [None] and the empty string are false. *)
Definition truthy (key_value : option string) : bool :=
  match key_value with
  | None => false
  | Some s => negb (String.eqb s "")
  end.

(** The body of the loop of [get_state] for one row. *)
Definition slot_entry (algorithm_type : string) (slot : HashTableSlot.t)
    : table_entry :=
  if decide (algorithm_type = "chaining") then
    Chained ((λ item, (ChainedElement.key_value item,
                       ChainedElement.actual_value item))
               <$> HashTableSlot.chained_elements slot)
  else
    Probed (if truthy (HashTableSlot.key_value slot)
            then Some (HashTableSlot.key_value slot,
                       HashTableSlot.actual_value slot)
            else None).

(** [get_state]. *)
Definition get_state : M state_dict :=
  self ← get_self;
  db ← get_db;
  let table_data := slot_entry (algorithm_type self) <$> objects_ordered db in
  mret (Build_state_dict (size self) table_data (collisions_count self)
          (probes_count self) (algorithm_type self)).

(** Python's [hash] on keys. *)
Class Hash : Type := hash : string → Z.

(** ** class ChainingHashTable *)

Module ChainingHashTable.
Section methods.
Context `{Hash}.

Definition __init__ (size : Z) : DB → outcome unit * world :=
  __init__ size "chaining".

Definition _hash_function (key : string) : M Z :=
  self ← get_self;
  py_mod (hash key) (size self).

(** [ChainedElement.objects.get(slot=slot, key_value=key)] on the elements of
    the slot: the element, when exactly one has the key. *)
Definition elements_get (chain : list ChainedElement.t) (key : string)
    : M ChainedElement.t :=
  match filter (λ item, ChainedElement.key_value item = key) chain with
  | [] => raise ChainedElement_DoesNotExist
  | [item] => mret item
  | _ => raise ChainedElement_MultipleObjectsReturned
  end.

(** [existing_element.actual_value = value; existing_element.save()]: the row
    of the element keeps its place among the elements of the slot. *)
Definition element_save (key value : string) (chain : list ChainedElement.t)
    : list ChainedElement.t :=
  (λ item, if decide (ChainedElement.key_value item = key)
           then ChainedElement.Build key value else item) <$> chain.

(** The slot row with other elements chained to it. *)
Definition with_elements (slot : HashTableSlot.t)
    (chain : list ChainedElement.t) : HashTableSlot.t :=
  HashTableSlot.Build (HashTableSlot.key_value slot)
    (HashTableSlot.actual_value slot) chain.

(** The writes of [insert] are inside [transaction.atomic()]. The exceptions
    it can raise come before its first write: [ZeroDivisionError] from the
    hash, and [MultipleObjectsReturned], which needs a slot that has
    elements, so that [get_or_create] created nothing. The rollback is the
    identity. *)
Definition insert (key value : string) : M unit :=
  reset_stats;;
  index ← _hash_function key;
  add_probes 1;;
  '(slot, created) ← objects_get_or_create index;
  let chain := HashTableSlot.chained_elements slot in
  (if negb created
   then (if bool_decide (chain ≠ []) then add_collisions 1 else mret tt)
   else mret tt);;
  updated ← try_except
    (_ ← elements_get chain key;
     save index (with_elements slot (element_save key value chain));;
     mret true)
    ChainedElement_DoesNotExist
    (mret false);
  if negb updated
  then save index (with_elements slot
                     (chain ++ [ChainedElement.Build key value]))
  else mret tt.

Definition search (key : string) : M (option string) :=
  reset_stats;;
  index ← _hash_function key;
  add_probes 1;;
  try_except
    (slot ← objects_get index;
     for_in (HashTableSlot.chained_elements slot)
       (λ item,
          add_probes 1;;
          if decide (ChainedElement.key_value item = key)
          then mret (Return (Some (ChainedElement.actual_value item)))
          else mret Next)
       (mret None))
    HashTableSlot_DoesNotExist
    (mret None).

End methods.
End ChainingHashTable.

(** ** The three probing classes *)

(** The three probing [insert]s run the same statements on the slot of the
    index they computed (lines 142-155, 193-206 and 253-266), and so do the
    three [search]es (lines 166-172, 217-223 and 277-283). *)
Definition insert_at (index : Z) (key value : string) : M (flow unit) :=
  slot ← objects_get index;
  match HashTableSlot.key_value slot with
  | None =>
      save index (HashTableSlot.Build (Some key) (Some value)
                    (HashTableSlot.chained_elements slot));;
      mret (Return tt)
  | Some k =>
      if decide (k = key) then
        save index (HashTableSlot.Build (HashTableSlot.key_value slot)
                      (Some value) (HashTableSlot.chained_elements slot));;
        mret (Return tt)
      else
        add_collisions 1;;
        add_probes 1;;
        mret Next
  end.

Definition search_at (index : Z) (key : string) : M (flow (option string)) :=
  slot ← objects_get index;
  match HashTableSlot.key_value slot with
  | None => mret (Return None)
  | Some k =>
      if decide (k = key) then mret (Return (HashTableSlot.actual_value slot))
      else add_probes 1;; mret Next
  end.

Module LinearProbingHashTable.
Section methods.
Context `{Hash}.

Definition __init__ (size : Z) : DB → outcome unit * world :=
  __init__ size "linear_probing".

Definition _hash_function (key : string) : M Z :=
  self ← get_self;
  py_mod (hash key) (size self).

Definition insert (key value : string) : M unit :=
  reset_stats;;
  initial_index ← _hash_function key;
  add_probes 1;;
  self ← get_self;
  for_in (range (size self))
    (λ i,
       index ← py_mod (initial_index + i) (size self);
       insert_at index key value)
    (raise TableFull).

Definition search (key : string) : M (option string) :=
  reset_stats;;
  initial_index ← _hash_function key;
  add_probes 1;;
  self ← get_self;
  for_in (range (size self))
    (λ i,
       index ← py_mod (initial_index + i) (size self);
       search_at index key)
    (mret None).

End methods.
End LinearProbingHashTable.

Module QuadraticProbingHashTable.
Section methods.
Context `{Hash}.

Definition __init__ (size : Z) : DB → outcome unit * world :=
  __init__ size "quadratic_probing".

Definition _hash_function (key : string) : M Z :=
  self ← get_self;
  py_mod (hash key) (size self).

Definition insert (key value : string) : M unit :=
  reset_stats;;
  initial_index ← _hash_function key;
  add_probes 1;;
  self ← get_self;
  for_in (range (size self))
    (λ i,
       let offset := i * i in
       index ← py_mod (initial_index + offset) (size self);
       insert_at index key value)
    (raise TableFull).

Definition search (key : string) : M (option string) :=
  reset_stats;;
  initial_index ← _hash_function key;
  add_probes 1;;
  self ← get_self;
  for_in (range (size self))
    (λ i,
       let offset := i * i in
       index ← py_mod (initial_index + offset) (size self);
       search_at index key)
    (mret None).

End methods.
End QuadraticProbingHashTable.

Module DoubleHashingHashTable.
Section methods.
Context `{Hash}.

Definition __init__ (size : Z) : DB → outcome unit * world :=
  __init__ size "double_hashing".

Definition _hash_function (key : string) : M Z :=
  self ← get_self;
  py_mod (hash key) (size self).

Definition _hash_function2 (key : string) : M Z :=
  self ← get_self;
  h ← py_mod (hash key) (size self - 1);
  mret (h + 1).

Definition insert (key value : string) : M unit :=
  reset_stats;;
  h1 ← _hash_function key;
  h2 ← _hash_function2 key;
  add_probes 1;;
  self ← get_self;
  for_in (range (size self))
    (λ i,
       index ← py_mod (h1 + i * h2) (size self);
       insert_at index key value)
    (raise TableFull).

Definition search (key : string) : M (option string) :=
  reset_stats;;
  h1 ← _hash_function key;
  h2 ← _hash_function2 key;
  add_probes 1;;
  self ← get_self;
  for_in (range (size self))
    (λ i,
       index ← py_mod (h1 + i * h2) (size self);
       search_at index key)
    (mret None).

End methods.
End DoubleHashingHashTable.

(** ** The four strategies together *)

(** The keys of [_hashing_tables] in [views.py]. *)
Inductive strategy : Type :=
  | chaining
  | linear_probing
  | quadratic_probing
  | double_hashing.

Global Instance strategy_eq_dec : EqDecision strategy.
Proof. solve_decision. Defined.

(** The open-addressing strategies. *)
Definition probing (s : strategy) : Prop := s ≠ chaining.

(** The [algorithm_type] the class of the strategy passes to [HashTable]. *)
Definition algorithm_name (s : strategy) : string :=
  match s with
  | chaining => "chaining"
  | linear_probing => "linear_probing"
  | quadratic_probing => "quadratic_probing"
  | double_hashing => "double_hashing"
  end.

Section dispatch.
Context `{Hash}.

(** The constructor of the class of the strategy. *)
Definition new (s : strategy) (size : Z) : DB → outcome unit * world :=
  match s with
  | chaining => ChainingHashTable.__init__ size
  | linear_probing => LinearProbingHashTable.__init__ size
  | quadratic_probing => QuadraticProbingHashTable.__init__ size
  | double_hashing => DoubleHashingHashTable.__init__ size
  end.

Definition insert (s : strategy) (key value : string) : M unit :=
  match s with
  | chaining => ChainingHashTable.insert key value
  | linear_probing => LinearProbingHashTable.insert key value
  | quadratic_probing => QuadraticProbingHashTable.insert key value
  | double_hashing => DoubleHashingHashTable.insert key value
  end.

Definition search (s : strategy) (key : string) : M (option string) :=
  match s with
  | chaining => ChainingHashTable.search key
  | linear_probing => LinearProbingHashTable.search key
  | quadratic_probing => QuadraticProbingHashTable.search key
  | double_hashing => DoubleHashingHashTable.search key
  end.

(** A caller's history: calls of [insert] and [search] on one table object,
    each continuing from the state the previous one left, whether it
    returned or raised ([HashingOperationView.post] catches the exception
    and keeps the object). *)
Inductive operation : Type :=
  | Insert (key value : string)
  | Search (key : string).

Definition run_operation (s : strategy) (o : operation) (w : world) : world :=
  match o with
  | Insert key value => (insert s key value w).2
  | Search key => (search s key w).2
  end.

Definition run (s : strategy) (ops : list operation) (w : world) : world :=
  foldl (λ w o, run_operation s o w) w ops.

(** The table of strategy [s] and size [n] built on an empty store, after the
    calls [ops]. *)
Definition table_after (s : strategy) (n : Z) (ops : list operation) : world :=
  run s ops (new s n ∅).2.

End dispatch.

(** ** Vocabulary of the statements *)

(** The object [self] with other counters. *)
Definition with_stats (self : HashTable) (c p : Z) : HashTable :=
  Build_HashTable (size self) (algorithm_type self) c p.

(** The row of index [index] is occupied ([key_value is not None]) by a key
    other than [key]: the last branch of the probing loops. *)
Definition other_key (db : DB) (index : Z) (key : string) : bool :=
  match db !! index with
  | Some slot =>
      match HashTableSlot.key_value slot with
      | Some k => bool_decide (k ≠ key)
      | None => false
      end
  | None => false
  end.

(** The number of occupied rows. *)
Definition occupied (db : DB) : nat :=
  length (filter (λ r, HashTableSlot.key_value r.2 ≠ None) (map_to_list db)).

(** The row a probing [insert] saves in place of [slot]. *)
Definition filled (slot : HashTableSlot.t) (key value : string)
    : HashTableSlot.t :=
  HashTableSlot.Build (Some key) (Some value)
    (HashTableSlot.chained_elements slot).

(** The number of leading elements of [l] that satisfy [f]. *)
Fixpoint leading {X : Type} (f : X → bool) (l : list X) : Z :=
  match l with
  | [] => 0
  | x :: l' => if f x then 1 + leading f l' else 0
  end.

Section vocabulary.
Context `{Hash}.

(** The index the strategy computes at iteration [i] of its loop, for a
    table of size [n] (lines 141, 191-192 and 252; for chaining the index of
    the bucket, line 82). *)
Definition candidate (s : strategy) (n : Z) (key : string) (i : Z) : Z :=
  match s with
  | chaining => hash key `mod` n
  | linear_probing => (hash key `mod` n + i) `mod` n
  | quadratic_probing => (hash key `mod` n + i * i) `mod` n
  | double_hashing =>
      (hash key `mod` n + i * (hash key `mod` (n - 1) + 1)) `mod` n
  end.

(** The hash functions of the strategy divide by [n], and [_hash_function2]
    by [n - 1]. *)
Definition hashes_defined (s : strategy) (n : Z) : Prop :=
  n ≠ 0 ∧ (s = double_hashing → n ≠ 1).

Global Instance hashes_defined_dec (s : strategy) (n : Z) :
  Decision (hashes_defined s n).
Proof. unfold hashes_defined. apply _. Defined.

(** The placement invariant of open addressing: a stored key sits at a
    candidate of its own probe sequence, and the candidates before it are
    occupied by other keys. *)
Definition placed (s : strategy) (n : Z) (db : DB) : Prop :=
  ∀ p slot k,
    db !! p = Some slot → HashTableSlot.key_value slot = Some k →
    hashes_defined s n ∧
    ∃ j, 0 ≤ j < n ∧ candidate s n k j = p ∧
         ∀ i, 0 ≤ i < j → other_key db (candidate s n k i) k = true.

(** What holds of a probing table built by its constructor and used through
    [insert] and [search]: its size and name, the placement invariant, and
    the rows of its store. *)
Definition table_inv (s : strategy) (n : Z) (w : world) : Prop :=
  size w.1 = n ∧
  algorithm_type w.1 = algorithm_name s ∧
  placed s n w.2 ∧
  ∀ i, is_Some (w.2 !! i) ↔ 0 ≤ i < n.

End vocabulary.

(** The value [ChainingHashTable.search] returns for a bucket: that of the
    first element with the key. *)
Definition first_value (key : string) (chain : list ChainedElement.t)
    : option string :=
  (λ r, ChainedElement.actual_value r.2)
    <$> list_find (λ item, ChainedElement.key_value item = key) chain.

(** The probes [ChainingHashTable.search] counts on a bucket: one for each
    element up to the first with the key. *)
Definition scanned (key : string) (chain : list ChainedElement.t) : Z :=
  match list_find (λ item, ChainedElement.key_value item = key) chain with
  | Some r => Z.of_nat r.1 + 1
  | None => Z.of_nat (length chain)
  end.

(** A hash for the examples: the sum of the character codes of the key. *)
Definition sum_codes : Hash := λ key,
  foldr (λ c n, Z.of_nat (Ascii.nat_of_ascii c) + n) 0
    (String.list_ascii_of_string key).

(** ** Vocabulary of the further properties *)

(** The store of a table of strategy [s] holds [key] with [value]: for
    chaining an element of a bucket has them, for probing a slot has them. *)
Definition holds (s : strategy) (db : DB) (key value : string) : Prop :=
  ∃ p slot,
    db !! p = Some slot ∧
    match s with
    | chaining =>
        ChainedElement.Build key value ∈ HashTableSlot.chained_elements slot
    | _ =>
        HashTableSlot.key_value slot = Some key ∧
        HashTableSlot.actual_value slot = Some value
    end.

Section chaining_vocabulary.
Context `{Hash}.

(** What holds of a chaining table built by its constructor and used through
    [insert] and [search]: the keys of a bucket are pairwise distinct
    ([unique_together = ('slot', 'key_value')]), an element is in the
    bucket of its hash, and the store of a table of positive size has the
    rows of [range(size)]. *)
Definition chaining_inv (n : Z) (w : world) : Prop :=
  size w.1 = n ∧
  algorithm_type w.1 = algorithm_name chaining ∧
  (0 < n → ∀ i, is_Some (w.2 !! i) ↔ 0 ≤ i < n) ∧
  ∀ p slot,
    w.2 !! p = Some slot →
    NoDup (ChainedElement.key_value <$> HashTableSlot.chained_elements slot) ∧
    ∀ item, item ∈ HashTableSlot.chained_elements slot →
            n ≠ 0 ∧ hash (ChainedElement.key_value item) `mod` n = p.

End chaining_vocabulary.

(** The operation is an [insert] of [key]. *)
Definition inserts (key : string) (o : operation) : bool :=
  match o with
  | Insert k _ => bool_decide (k = key)
  | Search _ => false
  end.

(** ** [views.py] *)

(** The views keep one table object for each strategy in [_hashing_tables]
    and a log in the table [HashingLog]. The fields of a request and the
    [algorithm_type] of the URL are strings, or absent ([None]); [str(e)] of
    the exceptions that the Python runtime or Django raise is a parameter.
    A log row is kept without its [timestamp], in the order of creation;
    [save_log_to_db] on a store that does not fail is the creation of the
    row. *)

(** [TABLE_SIZE]. *)
Definition TABLE_SIZE : Z := 10.

Module HashingLog.
Record t : Type := Build
  { algorithm_type : string;
    operation_type : string;
    key : string;
    value : option string;
    result : string;
    table_state_json : state_dict;
    collisions : Z;
    probes : Z }.
End HashingLog.

(** The state the views share: the table object of each strategy with the
    rows of its algorithm, and the rows of [HashingLog]. *)
Record system : Type := Build_system
  { _hashing_tables : strategy → world;
    logs : list HashingLog.t }.

(** [_hashing_tables[algorithm_type] = table]. *)
Definition set_table (s : strategy) (w : world) (tables : strategy → world)
    : strategy → world :=
  λ s', if decide (s' = s) then w else tables s'.

(** The body of [request.data] that [post] reads. *)
Record request_data : Type := Build_request_data
  { rq_key : option string;
    rq_value : option string;
    rq_operation : option string }.

(** The dictionary of a [Response]. *)
Inductive response_data : Type :=
  | ErrorData (error : string)
  | OperationData (message : string) (result : option string)
      (table_state : state_dict)
  | StateData (state : state_dict)
  | MessageData (message : string).

Record Response : Type := Build_Response
  { data : response_data;
    status : Z }.

(** [str(e)]; the text of [TableFull] is that of line 156. *)
Class Runtime : Type := runtime_str : exn → string.

Definition str_exn `{Runtime} (e : exn) : string :=
  match e with
  | TableFull => "Tabla hash llena. No se pudo insertar el elemento."
  | _ => runtime_str e
  end.

(** [str(operation_result)] of a search. *)
Definition str_result (r : option string) : string :=
  match r with
  | Some v => v
  | None => "None"
  end.

(** [HashingBaseView.get_hashing_table]: the keys of [_hashing_tables]. *)
Definition get_hashing_table (algorithm_type : string) : option strategy :=
  if decide (algorithm_type = "chaining") then Some chaining
  else if decide (algorithm_type = "linear_probing") then Some linear_probing
  else if decide (algorithm_type = "quadratic_probing")
       then Some quadratic_probing
  else if decide (algorithm_type = "double_hashing") then Some double_hashing
  else None.

Section views.
Context `{Hash} `{Runtime}.

(** [save_log_to_db]; [collisions] and [probes] are those of [table_state]
    (lines 81-82 and 100-101). *)
Definition save_log_to_db (algorithm_type operation_type key : string)
    (value : option string) (result : string) (table_state : state_dict)
    (log : list HashingLog.t) : list HashingLog.t :=
  log ++ [HashingLog.Build algorithm_type operation_type key value result
            table_state (sd_collisions_count table_state)
            (sd_probes_count table_state)].

(** The [except Exception as e] branch of [HashingOperationView.post]
    (lines 90-103), entered with the table in the state [w]; an exception of
    [get_state] in it leaves the view. *)
Definition post_except (s : strategy) (algorithm_type operation key : string)
    (value : option string) (sys : system) (e : exn) (w : world)
    : outcome Response * system :=
  match get_state w with
  | (Returns table_state, w') =>
      (Returns
         (Build_Response
            (ErrorData ("Error en la operación de hashing: " +:+ str_exn e))
            500),
       Build_system (set_table s w' (_hashing_tables sys))
         (save_log_to_db algorithm_type operation key value
            ("Error: " +:+ str_exn e) table_state (logs sys)))
  | (Raises e', w') =>
      (Raises e', Build_system (set_table s w' (_hashing_tables sys)) (logs sys))
  end.

(** The end of the [try] block of [HashingOperationView.post] (lines 73-88),
    after the table returned [operation_result]. *)
Definition post_success (s : strategy) (algorithm_type operation key : string)
    (value : option string) (sys : system) (message : string)
    (operation_result : option string) (w : world)
    : outcome Response * system :=
  match get_state w with
  | (Returns table_state, w') =>
      (Returns
         (Build_Response (OperationData message operation_result table_state)
            200),
       Build_system (set_table s w' (_hashing_tables sys))
         (save_log_to_db algorithm_type operation key value
            (str_result operation_result) table_state (logs sys)))
  | (Raises e, w') => post_except s algorithm_type operation key value sys e w'
  end.

(** [HashingOperationView.post(request, algorithm_type)]. *)
Definition HashingOperationView_post (algorithm_type : string)
    (request : request_data) (sys : system) : outcome Response * system :=
  match get_hashing_table algorithm_type with
  | None =>
      (Returns
         (Build_Response (ErrorData "Algoritmo de hashing no válido.") 400),
       sys)
  | Some s =>
      let table := _hashing_tables sys s in
      let key := rq_key request in
      let value := rq_value request in
      let operation := rq_operation request in
      if negb (truthy key) || negb (truthy operation) then
        (Returns
           (Build_Response (ErrorData "Faltan 'key' o 'operation'.") 400),
         sys)
      else
        let key := default "" key in
        let operation := default "" operation in
        if decide (operation = "insert") then
          match value with
          | None =>
              (Returns
                 (Build_Response
                    (ErrorData "Falta 'value' para la operación de inserción.")
                    400),
               sys)
          | Some v =>
              match insert s key v table with
              | (Returns _, w) =>
                  post_success s algorithm_type operation key value sys
                    ("'" +:+ key +:+ "':'" +:+ v +:+
                     "' insertado/actualizado con " +:+ algorithm_type +:+ ".")
                    (Some "success") w
              | (Raises e, w) =>
                  post_except s algorithm_type operation key value sys e w
              end
          end
        else if decide (operation = "search") then
          match search s key table with
          | (Returns result, w) =>
              post_success s algorithm_type operation key value sys
                ("Búsqueda de '" +:+ key +:+ "' en " +:+ algorithm_type +:+ ".")
                result w
          | (Raises e, w) =>
              post_except s algorithm_type operation key value sys e w
          end
        else
          (Returns
             (Build_Response
                (ErrorData "Operación no válida. Use 'insert' o 'search'.")
                400),
           sys)
  end.

(** [HashingStateView.get(request, algorithm_type)]. *)
Definition HashingStateView_get (algorithm_type : string) (sys : system)
    : outcome Response * system :=
  match get_hashing_table algorithm_type with
  | None =>
      (Returns
         (Build_Response (ErrorData "Algoritmo de hashing no válido.") 400),
       sys)
  | Some s =>
      match get_state (_hashing_tables sys s) with
      | (Returns sd, w) =>
          (Returns (Build_Response (StateData sd) 200),
           Build_system (set_table s w (_hashing_tables sys)) (logs sys))
      | (Raises e, w) =>
          (Raises e,
           Build_system (set_table s w (_hashing_tables sys)) (logs sys))
      end
  end.

(** [ResetHashingStateView.post(request, algorithm_type)]: the rows of the
    algorithm are deleted and the constructor of its class runs on the store
    without them. *)
Definition ResetHashingStateView_post (algorithm_type : string) (sys : system)
    : outcome Response * system :=
  if decide (algorithm_type = "all") then
    (Returns
       (Build_Response
          (MessageData "Todas las tablas hash han sido reseteadas y re-inicializadas en la base de datos.")
          200),
     Build_system (λ s, (new s TABLE_SIZE ∅).2) (logs sys))
  else
    match get_hashing_table algorithm_type with
    | None =>
        (Returns
           (Build_Response (ErrorData "Algoritmo de hashing no válido.") 400),
         sys)
    | Some s =>
        (Returns
           (Build_Response
              (MessageData ("La tabla hash '" +:+ algorithm_type +:+
                 "' ha sido reseteada y re-inicializada en la base de datos."))
              200),
         Build_system
           (set_table s (new s TABLE_SIZE ∅).2 (_hashing_tables sys))
           (logs sys))
    end.

(** The state of the views when the module is loaded on an empty store. *)
Definition initial_system : system :=
  Build_system (λ s, (new s TABLE_SIZE ∅).2) [].

(** What a client can send. *)
Inductive http_request : Type :=
  | PostOperation (algorithm_type : string) (request : request_data)
  | GetState (algorithm_type : string)
  | PostReset (algorithm_type : string).

Definition serve (rq : http_request) (sys : system)
    : outcome Response * system :=
  match rq with
  | PostOperation algorithm_type request =>
      HashingOperationView_post algorithm_type request sys
  | GetState algorithm_type => HashingStateView_get algorithm_type sys
  | PostReset algorithm_type => ResetHashingStateView_post algorithm_type sys
  end.

(** The state of the views after the requests [rqs]. *)
Definition system_after (rqs : list http_request) : system :=
  foldl (λ sys rq, (serve rq sys).2) initial_system rqs.

End views.

(** The dictionary [get_state] returns for a table. *)
Definition state_of (w : world) : state_dict :=
  Build_state_dict (size w.1)
    (slot_entry (algorithm_type w.1) <$> objects_ordered w.2)
    (collisions_count w.1) (probes_count w.1) (algorithm_type w.1).

(** A request that [HashingOperationView.post] passes on to a table: the
    algorithm is a key of [_hashing_tables], [key] is true in Python and the
    operation is a search, or an insert with a value. *)
Definition well_formed (algorithm_type : string) (request : request_data)
    : Prop :=
  is_Some (get_hashing_table algorithm_type) ∧
  truthy (rq_key request) = true ∧
  (rq_operation request = Some "search" ∨
   rq_operation request = Some "insert" ∧ is_Some (rq_value request)).

(** What holds of the state of the views after any requests: the table of
    each strategy is one built with [TABLE_SIZE] on an empty store and used
    through [insert] and [search], and no [insert] had the empty key. *)
Definition served `{Hash} (sys : system) : Prop :=
  ∀ s, ∃ ops,
    _hashing_tables sys s = table_after s TABLE_SIZE ops ∧
    existsb (inserts "") ops = false.

Global Instance well_formed_dec (algorithm_type : string)
    (request : request_data) : Decision (well_formed algorithm_type request).
Proof. unfold well_formed. apply _. Defined.

(** A runtime for the examples: the texts of CPython and Django. *)
Definition example_runtime : Runtime := λ e,
  match e with
  | ZeroDivisionError => "integer division or modulo by zero"
  | HashTableSlot_DoesNotExist => "HashTableSlot matching query does not exist."
  | ChainedElement_DoesNotExist => "ChainedElement matching query does not exist."
  | ChainedElement_MultipleObjectsReturned =>
      "get() returned more than one ChainedElement -- it returned 2!"
  | TableFull => "Tabla hash llena. No se pudo insertar el elemento."
  end.

(** The request of an insert and of a search. *)
Definition insert_request (key value : string) : request_data :=
  Build_request_data (Some key) (Some value) (Some "insert").


(** ** The monad and the loops *)

Lemma bind_unfold {A B : Type} (m : M A) (f : A → M B) (w : world) :
  (m ≫= f) w =
  match m w with
  | (Returns a, w') => f a w'
  | (Raises e, w') => (Raises e, w')
  end.
Proof. reflexivity. Qed.

Lemma py_mod_nonzero (a b : Z) (w : world) :
  b ≠ 0 → py_mod a b w = (Returns (a `mod` b), w).
Proof. intros Hb. unfold py_mod. by rewrite decide_False. Qed.

Lemma py_mod_zero (a : Z) (w : world) :
  py_mod a 0 w = (Raises ZeroDivisionError, w).
Proof. reflexivity. Qed.

Lemma for_in_ext {X R : Type} (l : list X) (body body' : X → M (flow R))
    (orelse : M R) (w : world) :
  (∀ x w', body x w' = body' x w') →
  for_in l body orelse w = for_in l body' orelse w.
Proof.
  intros Hbody. revert w.
  induction l as [|x l IH]; intros w; simpl; [done|].
  rewrite !bind_unfold, Hbody.
  destruct (body' x w) as [[[|r]|e] w']; auto.
Qed.

Lemma reset_stats_run (T : HashTable) (db : DB) :
  reset_stats (T, db) = (Returns tt, (with_stats T 0 0, db)).
Proof. reflexivity. Qed.

Lemma add_probes_run (T : HashTable) (db : DB) (n : Z) :
  add_probes n (T, db) =
  (Returns tt, (with_stats T (collisions_count T) (probes_count T + n), db)).
Proof. reflexivity. Qed.

Lemma add_collisions_run (T : HashTable) (db : DB) (n : Z) :
  add_collisions n (T, db) =
  (Returns tt, (with_stats T (collisions_count T + n) (probes_count T), db)).
Proof. reflexivity. Qed.

Lemma other_key_true (db : DB) (index : Z) (key : string) :
  other_key db index key = true ↔
  ∃ slot k, db !! index = Some slot ∧
            HashTableSlot.key_value slot = Some k ∧ k ≠ key.
Proof.
  unfold other_key. split.
  - destruct (db !! index) as [slot|]; [|done].
    destruct (HashTableSlot.key_value slot) as [k|] eqn:Hk; [|done].
    intros Hne%bool_decide_eq_true. by exists slot, k.
  - intros (slot & k & -> & -> & Hne). by apply bool_decide_eq_true.
Qed.

(** One iteration of a probing [insert], by the state of the slot. *)
Lemma insert_at_other (index : Z) (key value : string) (T : HashTable)
    (db : DB) :
  other_key db index key = true →
  insert_at index key value (T, db) =
  (Returns Next,
   (with_stats T (collisions_count T + 1) (probes_count T + 1), db)).
Proof.
  intros (slot & k & Hslot & Hk & Hne)%other_key_true.
  unfold insert_at, objects_get. rewrite !bind_unfold. simpl.
  rewrite Hslot. simpl. rewrite Hk. by rewrite decide_False.
Qed.

Lemma insert_at_free (index : Z) (key value : string) (T : HashTable)
    (db : DB) (slot : HashTableSlot.t) :
  db !! index = Some slot →
  HashTableSlot.key_value slot = None ∨
  HashTableSlot.key_value slot = Some key →
  insert_at index key value (T, db) =
  (Returns (Return tt), (T, <[index := filled slot key value]> db)).
Proof.
  intros Hslot Hk.
  unfold insert_at, objects_get. rewrite !bind_unfold. simpl.
  rewrite Hslot. simpl. destruct Hk as [Hk|Hk]; rewrite Hk.
  - reflexivity.
  - by rewrite decide_True.
Qed.

Lemma insert_at_missing (index : Z) (key value : string) (T : HashTable)
    (db : DB) :
  db !! index = None →
  insert_at index key value (T, db) = (Raises HashTableSlot_DoesNotExist, (T, db)).
Proof.
  intros Hslot.
  unfold insert_at, objects_get. rewrite !bind_unfold. simpl.
  by rewrite Hslot.
Qed.

(** The three states a slot can be in for a key. *)
Lemma slot_cases (db : DB) (index : Z) (key : string) :
  other_key db index key = true ∨
  db !! index = None ∨
  ∃ slot, db !! index = Some slot ∧
          (HashTableSlot.key_value slot = None ∨
           HashTableSlot.key_value slot = Some key).
Proof.
  destruct (db !! index) as [slot|] eqn:Hslot; [|by right; left].
  destruct (HashTableSlot.key_value slot) as [k|] eqn:Hk.
  - destruct (decide (k = key)) as [->|Hne].
    + right; right. exists slot. auto.
    + left. apply other_key_true. by exists slot, k.
  - right; right. exists slot. auto.
Qed.

(** ** The probing loops *)

Lemma leading_nonneg {X : Type} (f : X → bool) (l : list X) : 0 ≤ leading f l.
Proof. induction l as [|x l IH]; simpl; [lia|]. destruct (f x); lia. Qed.

Lemma leading_le_length {X : Type} (f : X → bool) (l : list X) :
  leading f l ≤ Z.of_nat (length l).
Proof. induction l as [|x l IH]; simpl; [lia|]. destruct (f x); lia. Qed.

Section probing_loops.
Variable idx : Z → Z.
Variables key value : string.

(** The loop of [insert] passes over the candidates occupied by other keys,
    counting one collision and one probe for each. *)
Lemma insert_loop_skip (l1 l2 : list Z) (T : HashTable) (db : DB) :
  Forall (λ i, other_key db (idx i) key = true) l1 →
  for_in (l1 ++ l2) (λ i, insert_at (idx i) key value) (raise TableFull) (T, db) =
  for_in l2 (λ i, insert_at (idx i) key value) (raise TableFull)
    (with_stats T (collisions_count T + Z.of_nat (length l1))
       (probes_count T + Z.of_nat (length l1)), db).
Proof.
  intros Hl1. revert T.
  induction Hl1 as [|i l1 Hi _ IH]; intros T; simpl.
  - destruct T as [n a c p]. unfold with_stats. simpl.
    by rewrite !Z.add_0_r.
  - rewrite bind_unfold. cbv beta.
    rewrite insert_at_other by done. rewrite IH.
    unfold with_stats. simpl. do 3 f_equal; lia.
Qed.

(** What the loop of [insert] does, by the first candidate that is not
    occupied by another key. *)
Lemma insert_loop_spec (l : list Z) (T : HashTable) (db : DB) :
  ∃ l1 l2,
    l = l1 ++ l2 ∧
    Forall (λ i, other_key db (idx i) key = true) l1 ∧
    leading (λ i, other_key db (idx i) key) l = Z.of_nat (length l1) ∧
    let T' := with_stats T (collisions_count T + Z.of_nat (length l1))
                (probes_count T + Z.of_nat (length l1)) in
    match l2 with
    | [] =>
        for_in l (λ i, insert_at (idx i) key value) (raise TableFull) (T, db) =
        (Raises TableFull, (T', db))
    | i :: _ =>
        other_key db (idx i) key = false ∧
        match db !! idx i with
        | None =>
            for_in l (λ i, insert_at (idx i) key value) (raise TableFull) (T, db) =
            (Raises HashTableSlot_DoesNotExist, (T', db))
        | Some slot =>
            (HashTableSlot.key_value slot = None ∨
             HashTableSlot.key_value slot = Some key) ∧
            for_in l (λ i, insert_at (idx i) key value) (raise TableFull) (T, db) =
            (Returns tt, (T', <[idx i := filled slot key value]> db))
        end
    end.
Proof.
  induction l as [|i l IH].
  - exists [], []. repeat split; [constructor|]. simpl.
    destruct T as [n a c p]. unfold raise, with_stats. simpl.
    by rewrite !Z.add_0_r.
  - destruct (other_key db (idx i) key) eqn:Hi.
    + destruct IH as (l1 & l2 & -> & Hl1 & Hlead & Hrun).
      exists (i :: l1), l2. split; [done|]. split; [by constructor|].
      split; [simpl; rewrite Hi, Hlead; lia|].
      assert (Hall : Forall (λ i, other_key db (idx i) key = true) (i :: l1))
        by by constructor.
      change (i :: l1 ++ l2) with ((i :: l1) ++ l2).
      rewrite (insert_loop_skip (i :: l1) l2 T db Hall).
      clear Hrun. destruct l2 as [|j l2].
      * reflexivity.
      * destruct (slot_cases db (idx j) key) as [Hj|[Hj|(slot & Hj & Hk)]].
        -- exfalso. revert Hl1 Hlead Hj. clear. intros Hl1 Hlead Hj.
           induction Hl1 as [|x l1 Hx _ IH]; simpl in Hlead.
           ++ rewrite Hj in Hlead.
              pose proof (leading_nonneg (λ i, other_key db (idx i) key) l2).
              lia.
           ++ rewrite Hx in Hlead. apply IH. lia.
        -- assert (other_key db (idx j) key = false) as Hf
             by (unfold other_key; by rewrite Hj).
           split; [done|]. rewrite Hj. simpl. rewrite bind_unfold.
           cbv beta. by rewrite insert_at_missing.
        -- assert (other_key db (idx j) key = false) as Hf.
           { unfold other_key. rewrite Hj.
             destruct Hk as [->| ->]; [done|].
             by apply bool_decide_eq_false; intros []. }
           split; [done|]. rewrite Hj. split; [done|]. simpl.
           rewrite bind_unfold. cbv beta.
           by rewrite (insert_at_free _ _ _ _ _ slot).
    + exists [], (i :: l). split; [done|]. split; [constructor|].
      split; [simpl; by rewrite Hi|]. split; [done|].
      assert (HT : with_stats T (collisions_count T + Z.of_nat (length (@nil Z)))
                     (probes_count T + Z.of_nat (length (@nil Z))) = T).
      { destruct T as [n a c p]. unfold with_stats. simpl.
        by rewrite !Z.add_0_r. }
      cbv zeta. rewrite HT.
      destruct (slot_cases db (idx i) key) as [Hj|[Hj|(slot & Hj & Hk)]].
      * congruence.
      * rewrite Hj. simpl. rewrite bind_unfold.
        cbv beta. by rewrite insert_at_missing.
      * rewrite Hj. split; [done|]. simpl. rewrite bind_unfold.
        cbv beta. by rewrite (insert_at_free _ _ _ _ _ slot).
Qed.

End probing_loops.

Section search_loops.
Variable idx : Z → Z.
Variable key : string.

Lemma search_at_other (index : Z) (T : HashTable) (db : DB) :
  other_key db index key = true →
  search_at index key (T, db) =
  (Returns Next, (with_stats T (collisions_count T) (probes_count T + 1), db)).
Proof.
  intros (slot & k & Hslot & Hk & Hne)%other_key_true.
  unfold search_at, objects_get. rewrite !bind_unfold. simpl.
  rewrite Hslot. simpl. rewrite Hk. by rewrite decide_False.
Qed.

Lemma search_at_found (index : Z) (T : HashTable) (db : DB)
    (slot : HashTableSlot.t) :
  db !! index = Some slot →
  HashTableSlot.key_value slot = Some key →
  search_at index key (T, db) =
  (Returns (Return (HashTableSlot.actual_value slot)), (T, db)).
Proof.
  intros Hslot Hk.
  unfold search_at, objects_get. rewrite !bind_unfold. simpl.
  rewrite Hslot. simpl. rewrite Hk. by rewrite decide_True.
Qed.

Lemma search_loop_skip (l1 l2 : list Z) (T : HashTable) (db : DB) :
  Forall (λ i, other_key db (idx i) key = true) l1 →
  for_in (l1 ++ l2) (λ i, search_at (idx i) key) (mret None) (T, db) =
  for_in l2 (λ i, search_at (idx i) key) (mret None)
    (with_stats T (collisions_count T)
       (probes_count T + Z.of_nat (length l1)), db).
Proof.
  intros Hl1. revert T.
  induction Hl1 as [|i l1 Hi _ IH]; intros T; simpl.
  - destruct T as [n a c p]. unfold with_stats. simpl.
    by rewrite !Z.add_0_r.
  - rewrite bind_unfold. cbv beta.
    rewrite search_at_other by done. rewrite IH.
    unfold with_stats. simpl. do 3 f_equal; lia.
Qed.

(** The loop of [search] never writes: the store and the object keep
    everything but the counters. *)
Lemma search_loop_reads (l : list Z) (T : HashTable) (db : DB) :
  ∃ r p, for_in l (λ i, search_at (idx i) key) (mret None) (T, db) =
         (r, (with_stats T (collisions_count T) p, db)).
Proof.
  revert T. induction l as [|i l IH]; intros T; simpl.
  - exists (Returns None), (probes_count T). by destruct T.
  - rewrite bind_unfold. cbv beta.
    unfold search_at, objects_get. rewrite !bind_unfold. simpl.
    destruct (db !! idx i) as [slot|]; simpl.
    + destruct (HashTableSlot.key_value slot) as [k|]; simpl.
      * destruct (decide (k = key)); simpl.
        -- eexists _, (probes_count T). by destruct T.
        -- destruct (IH (with_stats T (collisions_count T) (probes_count T + 1)))
             as (r & p & Heq).
           exists r, p. exact Heq.
      * eexists _, (probes_count T). by destruct T.
    + eexists _, (probes_count T). by destruct T.
Qed.

End search_loops.

(** ** Running the monad *)

Lemma bind_assoc {A B C : Type} (m : M A) (f : A → M B) (g : B → M C)
    (w : world) :
  ((m ≫= f) ≫= g) w = (m ≫= λ a, f a ≫= g) w.
Proof.
  rewrite !bind_unfold. destruct (m w) as [[a|e] w']; [|done].
  by rewrite bind_unfold.
Qed.

Lemma bind_ret {A B : Type} (a : A) (f : A → M B) (w : world) :
  (mret a ≫= f) w = f a w.
Proof. reflexivity. Qed.

Lemma bind_raise {A B : Type} (e : exn) (f : A → M B) (w : world) :
  (raise e ≫= f) w = (Raises e, w).
Proof. reflexivity. Qed.

Lemma bind_get_self {B : Type} (f : HashTable → M B) (w : world) :
  (get_self ≫= f) w = f w.1 w.
Proof. reflexivity. Qed.

Lemma bind_get_db {B : Type} (f : DB → M B) (w : world) :
  (get_db ≫= f) w = f w.2 w.
Proof. reflexivity. Qed.

Lemma bind_reset_stats {B : Type} (f : unit → M B) (T : HashTable) (db : DB) :
  (reset_stats ≫= f) (T, db) = f tt (with_stats T 0 0, db).
Proof. reflexivity. Qed.

Lemma bind_add_probes {B : Type} (n : Z) (f : unit → M B) (T : HashTable)
    (db : DB) :
  (add_probes n ≫= f) (T, db) =
  f tt (with_stats T (collisions_count T) (probes_count T + n), db).
Proof. reflexivity. Qed.

Lemma bind_add_collisions {B : Type} (n : Z) (f : unit → M B) (T : HashTable)
    (db : DB) :
  (add_collisions n ≫= f) (T, db) =
  f tt (with_stats T (collisions_count T + n) (probes_count T), db).
Proof. reflexivity. Qed.

Lemma bind_py_mod {B : Type} (a b : Z) (f : Z → M B) (w : world) :
  b ≠ 0 → (py_mod a b ≫= f) w = f (a `mod` b) w.
Proof. intros Hb. by rewrite bind_unfold, py_mod_nonzero. Qed.

Lemma bind_py_mod_zero {B : Type} (a : Z) (f : Z → M B) (w : world) :
  (py_mod a 0 ≫= f) w = (Raises ZeroDivisionError, w).
Proof. reflexivity. Qed.

Ltac mrun :=
  repeat first
    [ rewrite bind_assoc
    | rewrite bind_ret
    | rewrite bind_raise
    | rewrite bind_get_self
    | rewrite bind_get_db
    | rewrite bind_reset_stats
    | rewrite bind_add_probes
    | rewrite bind_add_collisions
    | rewrite bind_py_mod by (simpl; lia)
    | progress simpl ].

(** ** The probing methods as loops over the candidates *)

Section probing_methods.
Context `{Hash}.

Lemma insert_probing (s : strategy) (key value : string) (T : HashTable)
    (db : DB) :
  probing s → hashes_defined s (size T) →
  insert s key value (T, db) =
  for_in (range (size T))
    (λ i, insert_at (candidate s (size T) key i) key value)
    (raise TableFull) (with_stats T 0 1, db).
Proof.
  intros Hs [Hn Hn1].
  destruct s; [done| | |];
    unfold insert, LinearProbingHashTable.insert,
      QuadraticProbingHashTable.insert, DoubleHashingHashTable.insert,
      LinearProbingHashTable._hash_function,
      QuadraticProbingHashTable._hash_function,
      DoubleHashingHashTable._hash_function,
      DoubleHashingHashTable._hash_function2.
  - mrun. apply for_in_ext. intros i w. by rewrite bind_py_mod.
  - mrun. apply for_in_ext. intros i w. by rewrite bind_py_mod.
  - specialize (Hn1 eq_refl). mrun.
    apply for_in_ext. intros i w. by rewrite bind_py_mod.
Qed.

Lemma hashes_undefined (s : strategy) (n : Z) :
  ¬ hashes_defined s n → n = 0 ∨ (s = double_hashing ∧ n = 1).
Proof.
  unfold hashes_defined. intros Hn.
  destruct (decide (n = 0)); [by left|right].
  destruct (decide (s = double_hashing)) as [->|]; [|by destruct Hn].
  split; [done|]. destruct (decide (n = 1)); [done|]. by destruct Hn.
Qed.

Lemma insert_undefined (s : strategy) (key value : string) (T : HashTable)
    (db : DB) :
  ¬ hashes_defined s (size T) →
  insert s key value (T, db) = (Raises ZeroDivisionError, (with_stats T 0 0, db)).
Proof.
  intros [H0|[-> H1]]%hashes_undefined.
  - destruct s;
      unfold insert, ChainingHashTable.insert, LinearProbingHashTable.insert,
        QuadraticProbingHashTable.insert, DoubleHashingHashTable.insert,
        ChainingHashTable._hash_function,
        LinearProbingHashTable._hash_function,
        QuadraticProbingHashTable._hash_function,
        DoubleHashingHashTable._hash_function;
      mrun; rewrite H0; by rewrite bind_py_mod_zero.
  - unfold insert, DoubleHashingHashTable.insert,
      DoubleHashingHashTable._hash_function,
      DoubleHashingHashTable._hash_function2.
    rewrite bind_reset_stats, bind_assoc, bind_get_self. simpl.
    rewrite bind_py_mod by lia.
    rewrite bind_assoc, bind_get_self. simpl. rewrite H1. simpl.
    rewrite bind_assoc. by rewrite bind_py_mod_zero.
Qed.

Lemma search_probing (s : strategy) (key : string) (T : HashTable) (db : DB) :
  probing s → hashes_defined s (size T) →
  search s key (T, db) =
  for_in (range (size T))
    (λ i, search_at (candidate s (size T) key i) key)
    (mret None) (with_stats T 0 1, db).
Proof.
  intros Hs [Hn Hn1].
  destruct s; [done| | |];
    unfold search, LinearProbingHashTable.search,
      QuadraticProbingHashTable.search, DoubleHashingHashTable.search,
      LinearProbingHashTable._hash_function,
      QuadraticProbingHashTable._hash_function,
      DoubleHashingHashTable._hash_function,
      DoubleHashingHashTable._hash_function2.
  - mrun. apply for_in_ext. intros i w. by rewrite bind_py_mod.
  - mrun. apply for_in_ext. intros i w. by rewrite bind_py_mod.
  - specialize (Hn1 eq_refl). mrun.
    apply for_in_ext. intros i w. by rewrite bind_py_mod.
Qed.

Lemma search_undefined (s : strategy) (key : string) (T : HashTable)
    (db : DB) :
  ¬ hashes_defined s (size T) →
  search s key (T, db) = (Raises ZeroDivisionError, (with_stats T 0 0, db)).
Proof.
  intros [H0|[-> H1]]%hashes_undefined.
  - destruct s;
      unfold search, ChainingHashTable.search, LinearProbingHashTable.search,
        QuadraticProbingHashTable.search, DoubleHashingHashTable.search,
        ChainingHashTable._hash_function,
        LinearProbingHashTable._hash_function,
        QuadraticProbingHashTable._hash_function,
        DoubleHashingHashTable._hash_function;
      mrun; rewrite H0; by rewrite bind_py_mod_zero.
  - unfold search, DoubleHashingHashTable.search,
      DoubleHashingHashTable._hash_function,
      DoubleHashingHashTable._hash_function2.
    rewrite bind_reset_stats, bind_assoc, bind_get_self. simpl.
    rewrite bind_py_mod by lia.
    rewrite bind_assoc, bind_get_self. simpl. rewrite H1. simpl.
    rewrite bind_assoc. by rewrite bind_py_mod_zero.
Qed.

End probing_methods.

Section search_spec.
Variable idx : Z → Z.
Variable key : string.

Lemma search_at_not_other (index : Z) (T : HashTable) (db : DB) :
  other_key db index key = false →
  search_at index key (T, db) =
  match db !! index with
  | None => (Raises HashTableSlot_DoesNotExist, (T, db))
  | Some slot =>
      match HashTableSlot.key_value slot with
      | None => (Returns (Return None), (T, db))
      | Some _ => (Returns (Return (HashTableSlot.actual_value slot)), (T, db))
      end
  end.
Proof.
  unfold other_key, search_at, objects_get.
  rewrite bind_assoc, bind_get_db. cbn [snd].
  destruct (db !! index) as [slot|]; [|done].
  rewrite bind_ret.
  destruct (HashTableSlot.key_value slot) as [k|]; [|done].
  intros Hk%bool_decide_eq_false.
  rewrite decide_True; [done|]. by destruct (decide (k = key)).
Qed.

(** What the loop of [search] does, by the first candidate that is not
    occupied by another key. *)
Lemma search_loop_spec (l : list Z) (T : HashTable) (db : DB) :
  ∃ l1 l2,
    l = l1 ++ l2 ∧
    Forall (λ i, other_key db (idx i) key = true) l1 ∧
    let T' := with_stats T (collisions_count T)
                (probes_count T + Z.of_nat (length l1)) in
    let run := for_in l (λ i, search_at (idx i) key) (mret None) (T, db) in
    match l2 with
    | [] => run = (Returns None, (T', db))
    | i :: _ =>
        other_key db (idx i) key = false ∧
        match db !! idx i with
        | None => run = (Raises HashTableSlot_DoesNotExist, (T', db))
        | Some slot =>
            match HashTableSlot.key_value slot with
            | None => run = (Returns None, (T', db))
            | Some _ => run = (Returns (HashTableSlot.actual_value slot), (T', db))
            end
        end
    end.
Proof.
  assert (HT : ∀ T : HashTable,
            with_stats T (collisions_count T)
              (probes_count T + Z.of_nat (length (@nil Z))) = T).
  { intros [n a c p]. unfold with_stats. simpl. by rewrite Z.add_0_r. }
  assert (Hhit : ∀ (T : HashTable) j l',
    other_key db (idx j) key = false →
    match db !! idx j with
    | None =>
        for_in (j :: l') (λ i, search_at (idx i) key) (mret None) (T, db) =
        (Raises HashTableSlot_DoesNotExist, (T, db))
    | Some slot =>
        match HashTableSlot.key_value slot with
        | None =>
            for_in (j :: l') (λ i, search_at (idx i) key) (mret None) (T, db) =
            (Returns None, (T, db))
        | Some _ =>
            for_in (j :: l') (λ i, search_at (idx i) key) (mret None) (T, db) =
            (Returns (HashTableSlot.actual_value slot), (T, db))
        end
    end).
  { intros T' j l' Hj. cbn [for_in]. rewrite bind_unfold.
    rewrite (search_at_not_other _ _ _ Hj).
    destruct (db !! idx j) as [slot|]; [|done].
    by destruct (HashTableSlot.key_value slot). }
  induction l as [|i l IH].
  - exists [], []. repeat split; [constructor|]. cbv zeta. by rewrite HT.
  - destruct (other_key db (idx i) key) eqn:Hi.
    + destruct IH as (l1 & l2 & -> & Hl1 & Hrun).
      exists (i :: l1), l2. split; [done|]. split; [by constructor|].
      assert (Hall : Forall (λ i, other_key db (idx i) key = true) (i :: l1))
        by by constructor.
      cbv zeta. change (i :: l1 ++ l2) with ((i :: l1) ++ l2).
      rewrite (search_loop_skip idx key (i :: l1) l2 T db Hall).
      destruct l2 as [|j l2]; [done|].
      destruct Hrun as [Hj _]. split; [done|]. by apply Hhit.
    + exists [], (i :: l). split; [done|]. split; [constructor|].
      cbv zeta. rewrite HT. split; [done|]. by apply Hhit.
Qed.

End search_spec.

(** ** Probing [insert]: failures and counters *)

Section probing_insert.
Context `{Hash}.

(** A probing [insert] that raises has written nothing. *)
Lemma insert_probing_raises (s : strategy) (key value : string) (w : world)
    (e : exn) :
  probing s →
  (insert s key value w).1 = Raises e →
  (insert s key value w).2.2 = w.2.
Proof.
  intros Hs. destruct w as [T db].
  destruct (decide (hashes_defined s (size T))) as [Hd|Hd].
  - rewrite insert_probing by done.
    destruct (insert_loop_spec (candidate s (size T) key) key value
                (range (size T)) (with_stats T 0 1) db)
      as (l1 & l2 & _ & _ & _ & Hrun).
    destruct l2 as [|i l2]; [by rewrite Hrun|].
    destruct Hrun as [_ Hrun].
    destruct (db !! candidate s (size T) key i) as [slot|].
    + destruct Hrun as [_ ->]. done.
    + by rewrite Hrun.
  - by rewrite insert_undefined.
Qed.

(** The candidates of the loop are the [i] with [0 <= i < n]. *)
Lemma elem_of_range (n i : Z) : i ∈ range n ↔ 0 ≤ i < n.
Proof.
  unfold range. rewrite elem_of_seqZ. lia.
Qed.

(** A probing [insert] whose hashes are defined raises [TableFull] exactly
    when every candidate is occupied by another key. *)
Lemma insert_probing_table_full (s : strategy) (key value : string)
    (T : HashTable) (db : DB) :
  probing s → hashes_defined s (size T) →
  (insert s key value (T, db)).1 = Raises TableFull ↔
  ∀ i, 0 ≤ i < size T → other_key db (candidate s (size T) key i) key = true.
Proof.
  intros Hs Hd. rewrite insert_probing by done.
  destruct (insert_loop_spec (candidate s (size T) key) key value
              (range (size T)) (with_stats T 0 1) db)
    as (l1 & l2 & Hl & Hl1 & _ & Hrun).
  destruct l2 as [|i l2].
  - rewrite Hrun. split; [intros _|done].
    intros i Hi%elem_of_range. rewrite Hl, app_nil_r in Hi.
    by apply (proj1 (Forall_forall _ _) Hl1).
  - destruct Hrun as [Hi Hrun].
    assert (Hin : 0 ≤ i < size T).
    { apply elem_of_range. rewrite Hl. set_solver. }
    split.
    + intros Hfull. exfalso.
      destruct (db !! candidate s (size T) key i) as [slot|].
      * destruct Hrun as [_ Hrun]. by rewrite Hrun in Hfull.
      * by rewrite Hrun in Hfull.
    + intros Hall. specialize (Hall i Hin). congruence.
Qed.

End probing_insert.

(** ** Chaining *)

Section chaining_methods.
Context `{Hash}.

Lemma try_except_returns {A : Type} (m h : M A) (e : exn) (w w' : world)
    (a : A) :
  m w = (Returns a, w') → try_except m e h w = (Returns a, w').
Proof. intros Hm. unfold try_except. by rewrite Hm. Qed.

Lemma try_except_caught {A : Type} (m h : M A) (e : exn) (w w' : world) :
  m w = (Raises e, w') → try_except m e h w = h w'.
Proof. intros Hm. unfold try_except. rewrite Hm. by rewrite decide_True. Qed.

Lemma try_except_passes {A : Type} (m h : M A) (e e' : exn) (w w' : world) :
  e' ≠ e → m w = (Raises e', w') → try_except m e h w = (Raises e', w').
Proof. intros He Hm. unfold try_except. rewrite Hm. by rewrite decide_False. Qed.

(** What [ChainingHashTable.insert] does, by the number of elements of the
    bucket that have the key. *)
Lemma chaining_insert_spec (key value : string) (T : HashTable) (db : DB) :
  size T ≠ 0 →
  let index := hash key `mod` size T in
  let slot := default empty_slot (db !! index) in
  let chain := HashTableSlot.chained_elements slot in
  let T' := with_stats T (if bool_decide (chain ≠ []) then 1 else 0) 1 in
  ChainingHashTable.insert key value (T, db) =
  match filter (λ item, ChainedElement.key_value item = key) chain with
  | [] =>
      (Returns tt,
       (T', <[index := ChainingHashTable.with_elements slot
                         (chain ++ [ChainedElement.Build key value])]> db))
  | [_] =>
      (Returns tt,
       (T', <[index := ChainingHashTable.with_elements slot
                         (ChainingHashTable.element_save key value chain)]> db))
  | _ => (Raises ChainedElement_MultipleObjectsReturned, (T', db))
  end.
Proof.
  intros Hn. cbv zeta.
  unfold ChainingHashTable.insert, ChainingHashTable._hash_function.
  rewrite bind_reset_stats, bind_assoc, bind_get_self. cbn [fst size with_stats].
  rewrite bind_py_mod by done. rewrite bind_add_probes.
  cbn [collisions_count probes_count with_stats size algorithm_type].
  unfold objects_get_or_create. rewrite bind_assoc, bind_get_db. cbn [snd].
  destruct (db !! (hash key `mod` size T)) as [slot|] eqn:Hslot; simpl default.
  - rewrite bind_ret. cbv beta iota. cbn [negb].
    destruct (bool_decide (HashTableSlot.chained_elements slot ≠ [])) eqn:Hne.
    + rewrite bind_add_collisions.
      cbn [collisions_count probes_count with_stats size algorithm_type].
      rewrite bind_unfold.
      unfold ChainingHashTable.elements_get.
      destruct (filter _ (HashTableSlot.chained_elements slot)) as [|x [|y l]].
      * erewrite try_except_caught; [|reflexivity]. reflexivity.
      * erewrite try_except_returns; [|reflexivity]. reflexivity.
      * erewrite (try_except_passes _ _ _ ChainedElement_MultipleObjectsReturned);
          [|done|reflexivity]. reflexivity.
    + rewrite bind_ret.
      rewrite bind_unfold.
      unfold ChainingHashTable.elements_get.
      destruct (filter _ (HashTableSlot.chained_elements slot)) as [|x [|y l]].
      * erewrite try_except_caught; [|reflexivity]. reflexivity.
      * erewrite try_except_returns; [|reflexivity]. reflexivity.
      * erewrite (try_except_passes _ _ _ ChainedElement_MultipleObjectsReturned);
          [|done|reflexivity]. reflexivity.
  - rewrite bind_assoc. unfold put_db at 1. rewrite bind_unfold. cbn [fst snd].
    rewrite bind_ret. cbv beta iota. cbn [negb]. rewrite bind_ret.
    rewrite bind_unfold. cbn [empty_slot HashTableSlot.chained_elements].
    rewrite filter_nil.
    erewrite try_except_caught; [|reflexivity].
    cbn. unfold save, put_db. rewrite bind_get_db. cbn.
    by rewrite insert_insert_eq.
Qed.

Lemma chaining_search_loop (key : string) (chain : list ChainedElement.t)
    (T : HashTable) (db : DB) :
  for_in chain
    (λ item,
       add_probes 1;;
       if decide (ChainedElement.key_value item = key)
       then mret (Return (Some (ChainedElement.actual_value item)))
       else mret Next)
    (mret None) (T, db) =
  (Returns (first_value key chain),
   (with_stats T (collisions_count T) (probes_count T + scanned key chain), db)).
Proof.
  revert T. induction chain as [|item chain IH]; intros T.
  - cbn. destruct T as [n a c p]. unfold with_stats. cbn.
    by rewrite Z.add_0_r.
  - cbn [for_in]. rewrite bind_assoc, bind_add_probes.
    unfold first_value, scanned. cbn [list_find].
    destruct (decide (ChainedElement.key_value item = key)) as [Hk|Hk].
    + rewrite !bind_ret. reflexivity.
    + rewrite !bind_ret. rewrite IH. unfold first_value, scanned.
      destruct (list_find _ chain) as [[i x]|]; cbn;
        unfold with_stats; cbn; do 3 f_equal; lia.
Qed.

Lemma chaining_search_spec (key : string) (T : HashTable) (db : DB) :
  size T ≠ 0 →
  ChainingHashTable.search key (T, db) =
  match db !! (hash key `mod` size T) with
  | Some slot =>
      let chain := HashTableSlot.chained_elements slot in
      (Returns (first_value key chain),
       (with_stats T 0 (1 + scanned key chain), db))
  | None => (Returns None, (with_stats T 0 1, db))
  end.
Proof.
  intros Hn.
  unfold ChainingHashTable.search, ChainingHashTable._hash_function.
  rewrite bind_reset_stats, bind_assoc, bind_get_self. cbn [fst size with_stats].
  rewrite bind_py_mod by done. rewrite bind_add_probes.
  cbn [collisions_count probes_count with_stats size algorithm_type].
  destruct (db !! (hash key `mod` size T)) as [slot|] eqn:Hslot.
  - erewrite try_except_returns; [reflexivity|].
    unfold objects_get. rewrite bind_assoc, bind_get_db. cbn [snd].
    rewrite Hslot, bind_ret. by rewrite chaining_search_loop.
  - erewrite try_except_caught; [reflexivity|].
    unfold objects_get. rewrite bind_assoc, bind_get_db. cbn [snd].
    by rewrite Hslot.
Qed.

Lemma first_value_unique (key v : string) (chain : list ChainedElement.t) :
  (∃ item, item ∈ chain ∧ ChainedElement.key_value item = key) →
  (∀ item, item ∈ chain → ChainedElement.key_value item = key →
           ChainedElement.actual_value item = v) →
  first_value key chain = Some v.
Proof.
  intros (item & Hin & Hk) Hall. unfold first_value.
  destruct (list_find _ chain) as [[i x]|] eqn:Hfind.
  - apply list_find_Some in Hfind as (Hx & Hkx & _). cbn. f_equal.
    apply Hall; [|done]. by eapply list_elem_of_lookup_2.
  - apply list_find_None in Hfind.
    by destruct (proj1 (Forall_forall _ _) Hfind item Hin).
Qed.

(** Chaining: a key just inserted is found with its value. *)
Lemma chaining_insert_search (key value : string) (w w' : world) :
  ChainingHashTable.insert key value w = (Returns tt, w') →
  (ChainingHashTable.search key w').1 = Returns (Some value).
Proof.
  destruct w as [T db]. intros Hins.
  destruct (decide (size T = 0)) as [H0|Hn].
  { pose proof (insert_undefined chaining key value T db) as Hz.
    unfold insert in Hz. rewrite Hz in Hins; [done|].
    unfold hashes_defined. intros [? _]. done. }
  pose proof (chaining_insert_spec key value T db Hn) as Hspec.
  cbv zeta in Hspec. rewrite Hins in Hspec. clear Hins.
  set (index := hash key `mod` size T) in *.
  set (slot := default empty_slot (db !! index)) in *.
  set (chain := HashTableSlot.chained_elements slot) in *.
  assert (∃ c chain',
    w' = (with_stats T c 1,
          <[index := ChainingHashTable.with_elements slot chain']> db) ∧
    first_value key chain' = Some value) as (c & chain' & -> & Hfirst).
  { destruct (filter _ chain) as [|x [|y l]] eqn:Hfilter; [| |done].
    - injection Hspec as ->. eexists _, _. split; [done|].
      apply first_value_unique.
      + exists (ChainedElement.Build key value). split; [set_solver|done].
      + intros item [Hin| ->%list_elem_of_singleton]%elem_of_app Hk; [|done].
        exfalso. assert (item ∈ filter
          (λ item, ChainedElement.key_value item = key) chain) as Hf
          by by apply list_elem_of_filter.
        rewrite Hfilter in Hf. by apply not_elem_of_nil in Hf.
    - injection Hspec as ->. eexists _, _. split; [done|].
      apply first_value_unique.
      + assert (x ∈ filter
          (λ item, ChainedElement.key_value item = key) chain) as Hf
          by (rewrite Hfilter; set_solver).
        apply list_elem_of_filter in Hf as [Hkx Hx].
        exists (ChainedElement.Build key value). split; [|done].
        unfold ChainingHashTable.element_save.
        apply list_elem_of_fmap. exists x. by rewrite decide_True.
      + intros item Hin Hk. unfold ChainingHashTable.element_save in Hin.
        apply list_elem_of_fmap in Hin as (y & -> & Hy).
        destruct (decide (ChainedElement.key_value y = key)) as [|Hne]; [done|].
        done. }
  rewrite chaining_search_spec by done. cbn [size with_stats].
  fold index. rewrite lookup_insert_eq. cbv zeta.
  unfold ChainingHashTable.with_elements at 1.
  cbn [fst HashTableSlot.chained_elements]. by rewrite Hfirst.
Qed.

End chaining_methods.

(** ** Probing: a key just inserted is found *)

Lemma other_key_insert_ne (db : DB) (p q : Z) (slot : HashTableSlot.t)
    (key : string) :
  p ≠ q → other_key (<[p := slot]> db) q key = other_key db q key.
Proof. intros Hpq. unfold other_key. by rewrite lookup_insert_ne. Qed.

Lemma other_key_filled (db : DB) (p : Z) (slot : HashTableSlot.t)
    (key value : string) :
  other_key (<[p := filled slot key value]> db) p key = false.
Proof.
  unfold other_key. rewrite lookup_insert_eq. cbn.
  apply bool_decide_eq_false. by intros [].
Qed.

Section probing_insert_search.
Context `{Hash}.

(** A probing [insert] that returns has saved the key and the value in the
    first candidate that was not occupied by another key, and nothing else. *)
Lemma insert_probing_returns (s : strategy) (key value : string)
    (T : HashTable) (db : DB) (w' : world) :
  probing s →
  insert s key value (T, db) = (Returns tt, w') →
  hashes_defined s (size T) ∧
  ∃ l1 i l2 slot,
    range (size T) = l1 ++ i :: l2 ∧
    Forall (λ j, other_key db (candidate s (size T) key j) key = true) l1 ∧
    other_key db (candidate s (size T) key i) key = false ∧
    db !! candidate s (size T) key i = Some slot ∧
    (HashTableSlot.key_value slot = None ∨
     HashTableSlot.key_value slot = Some key) ∧
    w' = (with_stats T (Z.of_nat (length l1)) (1 + Z.of_nat (length l1)),
          <[candidate s (size T) key i := filled slot key value]> db).
Proof.
  intros Hs Hins.
  destruct (decide (hashes_defined s (size T))) as [Hd|Hd];
    [|by rewrite insert_undefined in Hins].
  split; [done|]. rewrite insert_probing in Hins by done.
  destruct (insert_loop_spec (candidate s (size T) key) key value
              (range (size T)) (with_stats T 0 1) db)
    as (l1 & l2 & Hl & Hl1 & _ & Hrun).
  destruct l2 as [|i l2]; [by rewrite Hrun in Hins|].
  destruct Hrun as [Hi Hrun].
  destruct (db !! candidate s (size T) key i) as [slot|] eqn:Hslot;
    [|by rewrite Hrun in Hins].
  destruct Hrun as [Hk Hrun]. rewrite Hrun in Hins.
  exists l1, i, l2, slot. repeat split; try done.
  injection Hins as <-. unfold with_stats. cbn. do 2 f_equal.
Qed.

Lemma probing_insert_search (s : strategy) (key value : string)
    (w w' : world) :
  probing s →
  insert s key value w = (Returns tt, w') →
  (search s key w').1 = Returns (Some value).
Proof.
  intros Hs Hins. destruct w as [T db].
  apply insert_probing_returns in Hins
    as (Hd & l1 & i & l2 & slot & Hl & Hl1 & Hi & Hslot & Hk & ->); [|done].
  rewrite search_probing by done. cbn [size with_stats]. rewrite Hl.
  set (p := candidate s (size T) key i) in *.
  set (db' := <[p := filled slot key value]> db).
  assert (Forall (λ j, other_key db' (candidate s (size T) key j) key = true)
            l1) as Hl1'.
  { eapply Forall_impl; [exact Hl1|]. intros j Hj. cbn in Hj |- *.
    unfold db'. rewrite other_key_insert_ne; [done|].
    intros Heq. rewrite <- Heq in Hj. congruence. }
  rewrite (search_loop_skip (candidate s (size T) key) key l1 (i :: l2) _ db'
             Hl1').
  cbn [for_in]. rewrite bind_unfold.
  erewrite (search_at_found key _ _ db'
              (filled slot key value)); [done| |done].
  unfold db'. fold p. by rewrite lookup_insert_eq.
Qed.

End probing_insert_search.

(** ** Construction *)

Lemma objects_get_or_create_run (index : Z) (T : HashTable) (db : DB) :
  objects_get_or_create index (T, db) =
  match db !! index with
  | Some slot => (Returns (slot, false), (T, db))
  | None => (Returns (empty_slot, true), (T, <[index := empty_slot]> db))
  end.
Proof.
  unfold objects_get_or_create. rewrite bind_get_db. cbn [snd].
  by destruct (db !! index).
Qed.

Lemma initialize_loop (l : list Z) (T : HashTable) (db : DB) :
  ∃ db',
    for_in l (λ i, objects_get_or_create i;; mret Next) (mret tt) (T, db) =
    (Returns tt, (T, db')) ∧
    ∀ i, db' !! i = if decide (i ∈ l) then Some (default empty_slot (db !! i))
                    else db !! i.
Proof.
  revert db. induction l as [|x l IH]; intros db.
  - exists db. split; [done|]. intros i. rewrite decide_False; [done|].
    apply not_elem_of_nil.
  - destruct (db !! x) as [slot|] eqn:Hx.
    + destruct (IH db) as (db' & Hrun & Hdb').
      exists db'. split.
      { cbn [for_in]. rewrite bind_assoc, bind_unfold.
        rewrite objects_get_or_create_run, Hx. by rewrite bind_ret. }
      intros i. rewrite Hdb'.
      destruct (decide (i ∈ l)) as [Hi|Hi].
      * rewrite decide_True; [done|]. by right.
      * destruct (decide (i = x)) as [->|Hne].
        -- rewrite decide_True by left. by rewrite Hx.
        -- rewrite decide_False; [done|]. by intros [?|?]%elem_of_cons.
    + destruct (IH (<[x := empty_slot]> db)) as (db' & Hrun & Hdb').
      exists db'. split.
      { cbn [for_in]. rewrite bind_assoc, bind_unfold.
        rewrite objects_get_or_create_run, Hx. by rewrite bind_ret. }
      intros i. rewrite Hdb'.
      destruct (decide (i = x)) as [->|Hne].
      * rewrite lookup_insert_eq, Hx.
        rewrite (decide_True _ _ (list_elem_of_here _ _)).
        by destruct (decide (x ∈ l)).
      * rewrite lookup_insert_ne by done.
        destruct (decide (i ∈ l)) as [Hi|Hi].
        -- rewrite decide_True; [done|]. by right.
        -- rewrite decide_False; [done|]. by intros [?|?]%elem_of_cons.
Qed.

Section construction.
Context `{Hash}.

(** The constructors return, whatever the size: they make the rows of
    [range(size)] that the store lacks and leave the others as they are. *)
Lemma new_spec (s : strategy) (n : Z) (db : DB) :
  ∃ db',
    new s n db = (Returns tt, (Build_HashTable n (algorithm_name s) 0 0, db')) ∧
    ∀ i, db' !! i = if decide (0 ≤ i < n)
                    then Some (default empty_slot (db !! i))
                    else db !! i.
Proof.
  destruct (initialize_loop (range n)
              (Build_HashTable n (algorithm_name s) 0 0) db)
    as (db' & Hrun & Hdb').
  exists db'. split.
  - by destruct s.
  - intros i. rewrite Hdb'.
    destruct (decide (0 ≤ i < n)) as [Hi|Hi].
    + rewrite decide_True; [done|]. by apply elem_of_range.
    + rewrite decide_False; [done|]. by rewrite elem_of_range.
Qed.

End construction.

(** ** The tables a caller can reach *)

Lemma range_split (n i : Z) (l1 l2 : list Z) :
  range n = l1 ++ i :: l2 →
  0 ≤ i < n ∧ i = Z.of_nat (length l1) ∧ ∀ j, 0 ≤ j < i → j ∈ l1.
Proof.
  intros Hl.
  assert (Hi : range n !! length l1 = Some i).
  { rewrite Hl. by rewrite list_lookup_middle. }
  unfold range in Hi. apply lookup_seqZ in Hi as [Hi Hlt].
  split; [lia|]. split; [lia|]. intros j Hj.
  assert (Hjl : range n !! Z.to_nat j = Some j).
  { unfold range. apply lookup_seqZ. lia. }
  rewrite Hl, lookup_app_l in Hjl by lia.
  by eapply list_elem_of_lookup_2.
Qed.

Section reachable.
Context `{Hash}.

Lemma search_reads (s : strategy) (key : string) (w : world) :
  ∃ r p, search s key w = (r, (with_stats w.1 0 p, w.2)).
Proof.
  destruct w as [T db]. cbn [fst snd].
  destruct (decide (hashes_defined s (size T))) as [Hd|Hd];
    [|rewrite search_undefined by done; by eexists _, _].
  destruct (decide (s = chaining)) as [->|Hs].
  - destruct Hd as [Hn _]. unfold search.
    rewrite chaining_search_spec by done.
    destruct (db !! _); by eexists _, _.
  - rewrite search_probing by done.
    destruct (search_loop_reads (candidate s (size T) key) key
                (range (size T)) (with_stats T 0 1) db) as (r & p & ->).
    by exists r, p.
Qed.

Lemma placed_insert (s : strategy) (key value : string) (T : HashTable)
    (db : DB) :
  probing s →
  placed s (size T) db →
  placed s (size T) (insert s key value (T, db)).2.2.
Proof.
  intros Hs Hplaced.
  destruct (insert s key value (T, db)) as [[[]|e] w'] eqn:Hins.
  2:{ pose proof (insert_probing_raises s key value (T, db) e Hs) as Hsame.
      rewrite Hins in Hsame. cbn in Hsame |- *. by rewrite Hsame. }
  apply insert_probing_returns in Hins
    as (Hd & l1 & i & l2 & slot & Hl & Hl1 & Hi & Hslot & Hk & ->); [|done].
  cbn [snd]. apply range_split in Hl as (Hin & _ & Hbefore).
  set (n := size T) in *. set (p := candidate s n key i) in *.
  assert (Hl1e : ∀ j, 0 ≤ j < i → other_key db (candidate s n key j) key = true).
  { intros j Hj. by apply (proj1 (Forall_forall _ _) Hl1), Hbefore. }
  intros p2 slot2 k2 Hslot2 Hk2.
  destruct (decide (p2 = p)) as [->|Hne].
  - rewrite lookup_insert_eq in Hslot2. injection Hslot2 as <-.
    cbn in Hk2. injection Hk2 as <-. split; [done|].
    exists i. repeat split; [lia..|]. intros j Hj.
    rewrite other_key_insert_ne; [by apply Hl1e|].
    fold p. intros Heq. specialize (Hl1e j Hj). rewrite <- Heq in Hl1e.
    congruence.
  - rewrite lookup_insert_ne in Hslot2 by done.
    destruct (Hplaced p2 slot2 k2 Hslot2 Hk2) as (_ & j & Hj & Hp2 & Hbefore2).
    split; [done|]. exists j. repeat split; [lia..|done|].
    intros i' Hi'. specialize (Hbefore2 i' Hi').
    destruct (decide (candidate s n k2 i' = p)) as [Heq|Hneq].
    + rewrite Heq in Hbefore2 |- *.
      apply other_key_true in Hbefore2 as (slot' & k' & Hslot' & Hk' & Hne').
      rewrite Hslot in Hslot'. injection Hslot' as <-.
      apply other_key_true. exists (filled slot key value), key.
      rewrite lookup_insert_eq. repeat split.
      destruct Hk as [Hk|Hk]; rewrite Hk in Hk'; [done|].
      by injection Hk' as <-.
    + by rewrite other_key_insert_ne.
Qed.

Lemma table_inv_new (s : strategy) (n : Z) : table_inv s n (new s n ∅).2.
Proof.
  destruct (new_spec s n ∅) as (db' & -> & Hdb'). cbn [snd].
  assert (Hrow : ∀ i, db' !! i = if decide (0 ≤ i < n) then Some empty_slot
                                 else None).
  { intros i. rewrite Hdb', lookup_empty. by destruct (decide (0 ≤ i < n)). }
  split; [done|]. split; [done|]. split.
  - intros p slot k Hslot Hk. exfalso. rewrite Hrow in Hslot.
    destruct (decide (0 ≤ p < n)); [|done]. by injection Hslot as <-.
  - intros i. cbn [snd]. rewrite Hrow.
    destruct (decide (0 ≤ i < n)) as [Hi|Hi]; split; done.
Qed.

Lemma table_inv_insert (s : strategy) (n : Z) (key value : string)
    (w : world) :
  probing s → table_inv s n w → table_inv s n (insert s key value w).2.
Proof.
  intros Hs (Hn & Ha & Hp & Hdom). destruct w as [T db].
  cbn [fst snd] in *. subst n.
  pose proof (placed_insert s key value T db Hs Hp) as Hp'.
  destruct (insert s key value (T, db)) as [[[]|e] w'] eqn:Hins.
  - apply insert_probing_returns in Hins
      as (Hd & l1 & i & l2 & slot & Hl & Hl1 & Hi & Hslot & Hk & ->); [|done].
    cbn [fst snd] in *. split; [done|]. split; [done|]. split; [done|].
    intros q. rewrite <- Hdom. cbn [snd].
    destruct (decide (q = candidate s (size T) key i)) as [->|Hne].
    + by rewrite lookup_insert_eq, Hslot.
    + by rewrite lookup_insert_ne.
  - pose proof (insert_probing_raises s key value (T, db) e Hs) as Hsame.
    rewrite Hins in Hsame. cbn [fst snd] in *. specialize (Hsame eq_refl).
    subst. destruct w' as [T' db']. cbn [fst snd] in *.
    assert (∃ c p, T' = with_stats T c p) as (c & p & ->).
    { destruct (decide (hashes_defined s (size T))) as [Hd|Hd].
      - rewrite insert_probing in Hins by done.
        destruct (insert_loop_spec (candidate s (size T) key) key value
                    (range (size T)) (with_stats T 0 1) db')
          as (l1 & l2 & _ & _ & _ & Hrun).
        destruct l2 as [|i l2].
        + rewrite Hrun in Hins. injection Hins as _ <-. by eexists _, _.
        + destruct Hrun as [_ Hrun].
          destruct (db' !! candidate s (size T) key i) as [slot|].
          * destruct Hrun as [_ Hrun]. by rewrite Hrun in Hins.
          * rewrite Hrun in Hins. injection Hins as _ <-. by eexists _, _.
      - rewrite insert_undefined in Hins by done.
        injection Hins as _ <-. by eexists _, _. }
    done.
Qed.

Lemma table_inv_search (s : strategy) (n : Z) (key : string) (w : world) :
  table_inv s n w → table_inv s n (search s key w).2.
Proof.
  intros (Hn & Ha & Hp & Hdom).
  destruct (search_reads s key w) as (r & p & ->). done.
Qed.

Lemma table_inv_run (s : strategy) (n : Z) (ops : list operation) (w : world) :
  probing s → table_inv s n w → table_inv s n (run s ops w).
Proof.
  intros Hs. revert w. induction ops as [|o ops IH]; intros w Hw; [done|].
  cbn. apply IH. destruct o as [key value|key]; cbn.
  - by apply table_inv_insert.
  - by apply table_inv_search.
Qed.

Lemma table_inv_table_after (s : strategy) (n : Z) (ops : list operation) :
  probing s → table_inv s n (table_after s n ops).
Proof. intros Hs. apply table_inv_run; [done|]. apply table_inv_new. Qed.

End reachable.

(** ** Re-inserting a stored key *)

Lemma range_decompose (n j : Z) :
  0 ≤ j < n → range n = range j ++ j :: seqZ (j + 1) (n - j - 1).
Proof.
  intros Hj. unfold range.
  replace n with (j + (n - j)) at 1 by lia.
  rewrite seqZ_app by lia. f_equal.
  rewrite seqZ_cons by lia.
  replace (0 + j) with j by lia. replace (Z.succ j) with (j + 1) by lia.
  replace (Z.pred (n - j)) with (n - j - 1) by lia. reflexivity.
Qed.


Section reinsert.
Context `{Hash}.


End reinsert.

(** ** The snapshot of [get_state] *)

Lemma Sorted_seqZ (m n : Z) : Sorted Z.le (seqZ m n).
Proof.
  remember (Z.to_nat n) as k eqn:Hk. revert m n Hk.
  induction k as [|k IH]; intros m n Hk.
  - rewrite seqZ_nil by lia. constructor.
  - rewrite seqZ_cons by lia. constructor.
    + apply IH. lia.
    + destruct (decide (0 < Z.pred n)) as [Hn|Hn].
      * rewrite seqZ_cons by lia. constructor. lia.
      * rewrite seqZ_nil by lia. constructor.
Qed.

Lemma omap_lookup_defined {A B : Type} (f : A → option B) (l : list A)
    (k : nat) :
  Forall (λ x, is_Some (f x)) l → omap f l !! k = l !! k ≫= f.
Proof.
  intros Hl. revert k. induction Hl as [|x l [y Hy] _ IH]; intros k; [done|].
  cbn [omap list_omap]. change (omap f (x :: l)) with
    (match f x with Some y => y :: omap f l | None => omap f l end).
  rewrite Hy. destruct k as [|k]; cbn; [done|]. apply IH.
Qed.

(** The rows of a table whose store has the rows of [range(n)], in the order
    of [slot_index]. *)
Lemma slot_indices_range (db : DB) (n : Z) :
  (∀ i, is_Some (db !! i) ↔ 0 ≤ i < n) → slot_indices db = range n.
Proof.
  intros Hdom. unfold slot_indices.
  apply (Sorted_unique Z.le).
  - apply (Sorted_merge_sort Z.le).
  - apply Sorted_seqZ.
  - rewrite merge_sort_Permutation. apply NoDup_Permutation.
    + apply NoDup_elements.
    + apply NoDup_seqZ.
    + intros i. rewrite elem_of_elements, elem_of_dom, Hdom.
      by rewrite elem_of_range.
Qed.

Lemma objects_ordered_lookup (db : DB) (n p : Z) :
  (∀ i, is_Some (db !! i) ↔ 0 ≤ i < n) →
  0 ≤ p < n →
  objects_ordered db !! Z.to_nat p = db !! p.
Proof.
  intros Hdom Hp. unfold objects_ordered.
  rewrite (slot_indices_range db n Hdom).
  rewrite omap_lookup_defined.
  - unfold range. rewrite lookup_seqZ_lt by lia. cbn. f_equal. lia.
  - apply Forall_forall. intros i Hi%elem_of_range. by apply Hdom.
Qed.

(** [get_state] is a read; the entry of the row of index [p] is at place [p]
    of its ["table"]. *)
Lemma get_state_entry (T : HashTable) (db : DB) (n p : Z)
    (slot : HashTableSlot.t) :
  (∀ i, is_Some (db !! i) ↔ 0 ≤ i < n) →
  db !! p = Some slot →
  ∃ sd, get_state (T, db) = (Returns sd, (T, db)) ∧
        sd_collisions_count sd = collisions_count T ∧
        sd_probes_count sd = probes_count T ∧
        sd_table sd !! Z.to_nat p = Some (slot_entry (algorithm_type T) slot).
Proof.
  intros Hdom Hslot. eexists. split; [reflexivity|]. cbn.
  split; [done|]. split; [done|].
  rewrite list_lookup_fmap.
  rewrite (objects_ordered_lookup db n p Hdom), Hslot; [done|].
  apply Hdom. by rewrite Hslot.
Qed.

(** ** The claims *)

(** C1. For each of the four strategies: when [insert(key, value)] returns
    (it does not raise), a [search(key)] on the table it leaves returns
    [value]. *)
Theorem insert_then_search `{Hash} (s : strategy) (key value : string)
    (w : world) :
  (insert s key value w).1 = Returns tt →
  (search s key (insert s key value w).2).1 = Returns (Some value).
Proof.
  intros Hins.
  destruct (insert s key value w) as [r w'] eqn:Hrun.
  cbn [fst snd] in *. subst r.
  destruct (decide (s = chaining)) as [->|Hs].
  - by apply (chaining_insert_search key value w w').
  - by apply (probing_insert_search s key value w w').
Qed.

Lemma insert_then_search_witness :
  let w := table_after (H := sum_codes) quadratic_probing 3
             [Insert "A" "1"; Insert "C" "2"] in
  (insert (H := sum_codes) quadratic_probing "D" "3" w).1 = Returns tt ∧
  (search (H := sum_codes) quadratic_probing "D"
     (insert (H := sum_codes) quadratic_probing "D" "3" w).2).1 =
  Returns (Some "3").
Proof.
  intros w.
  assert (Hins : (insert (H := sum_codes) quadratic_probing "D" "3" w).1 =
                 Returns tt) by (vm_compute; reflexivity).
  split; [exact Hins|].
  exact (insert_then_search (H := sum_codes) quadratic_probing "D" "3" w Hins).
Defined.


(** C8. When a probing [insert] raises [TableFull], the store is the one
    before the call: no key and no value of any slot has changed. *)
Theorem table_full_leaves_slots `{Hash} (s : strategy) (key value : string)
    (w : world) :
  probing s →
  (insert s key value w).1 = Raises TableFull →
  (insert s key value w).2.2 = w.2.
Proof. intros Hs Hfull. by apply (insert_probing_raises s key value w TableFull). Qed.

Lemma table_full_leaves_slots_witness :
  let w := table_after (H := sum_codes) linear_probing 2
             [Insert "A" "1"; Insert "B" "2"] in
  (insert (H := sum_codes) linear_probing "C" "3" w).1 = Raises TableFull ∧
  (insert (H := sum_codes) linear_probing "C" "3" w).2.2 = w.2.
Proof.
  intros w.
  assert (Hfull : (insert (H := sum_codes) linear_probing "C" "3" w).1 =
                  Raises TableFull) by (vm_compute; reflexivity).
  split; [exact Hfull|].
  apply (table_full_leaves_slots (H := sum_codes) linear_probing "C" "3" w);
    [discriminate|exact Hfull].
Defined.

(** C10. On a double-hashing table of size 1, every [insert] and every
    [search] raises [ZeroDivisionError], for every key, and writes nothing;
    with a size of 2 or more neither of them raises it. *)
Theorem double_hashing_size_one `{Hash} (key value : string) (w : world) :
  (size w.1 = 1 →
   insert double_hashing key value w =
     (Raises ZeroDivisionError, (with_stats w.1 0 0, w.2)) ∧
   search double_hashing key w =
     (Raises ZeroDivisionError, (with_stats w.1 0 0, w.2))) ∧
  (2 ≤ size w.1 →
   (insert double_hashing key value w).1 ≠ Raises ZeroDivisionError ∧
   (search double_hashing key w).1 ≠ Raises ZeroDivisionError).
Proof.
  destruct w as [T db]. cbn [fst snd]. split.
  - intros H1. split.
    + apply insert_undefined. intros [_ Hd]. by apply Hd.
    + apply search_undefined. intros [_ Hd]. by apply Hd.
  - intros H2.
    assert (Hd : hashes_defined double_hashing (size T))
      by (split; [lia|intros _; lia]).
    split.
    + rewrite insert_probing by done.
      destruct (insert_loop_spec (candidate double_hashing (size T) key) key
                  value (range (size T)) (with_stats T 0 1) db)
        as (l1 & l2 & _ & _ & _ & Hrun).
      destruct l2 as [|i l2]; [by rewrite Hrun|].
      destruct Hrun as [_ Hrun].
      destruct (db !! candidate double_hashing (size T) key i) as [slot|].
      * destruct Hrun as [_ ->]. done.
      * by rewrite Hrun.
    + rewrite search_probing by done.
      destruct (search_loop_spec (candidate double_hashing (size T) key) key
                  (range (size T)) (with_stats T 0 1) db)
        as (l1 & l2 & _ & _ & Hrun).
      cbv zeta in Hrun.
      destruct l2 as [|i l2]; [by rewrite Hrun|].
      destruct Hrun as [_ Hrun].
      destruct (db !! candidate double_hashing (size T) key i) as [slot|].
      * destruct (HashTableSlot.key_value slot); by rewrite Hrun.
      * by rewrite Hrun.
Qed.

Lemma double_hashing_size_one_witness :
  let w1 := table_after (H := sum_codes) double_hashing 1 [] in
  let w2 := table_after (H := sum_codes) double_hashing 2 [] in
  (size w1.1 = 1 ∧
   insert (H := sum_codes) double_hashing "A" "1" w1 =
     (Raises ZeroDivisionError, (with_stats w1.1 0 0, w1.2)) ∧
   search (H := sum_codes) double_hashing "A" w1 =
     (Raises ZeroDivisionError, (with_stats w1.1 0 0, w1.2))) ∧
  (2 ≤ size w2.1 ∧
   (insert (H := sum_codes) double_hashing "A" "1" w2).1 ≠
     Raises ZeroDivisionError ∧
   (search (H := sum_codes) double_hashing "A" w2).1 ≠
     Raises ZeroDivisionError).
Proof.
  intros w1 w2.
  assert (H1 : size w1.1 = 1) by reflexivity.
  assert (H2 : 2 ≤ size w2.1) by (vm_compute; discriminate).
  split.
  - split; [exact H1|].
    exact (proj1 (double_hashing_size_one (H := sum_codes) "A" "1" w1) H1).
  - split; [exact H2|].
    exact (proj2 (double_hashing_size_one (H := sum_codes) "A" "1" w2) H2).
Defined.

(** C2, as the code has it. A probing [insert] counts one collision for each
    candidate it finds occupied by another key before it stops, the first
    one included: after the call [collisions_count] is the number of leading
    candidates occupied by another key, so iteration [i = 0] counts a
    collision exactly when the home slot holds another key. *)
Theorem first_iteration_counts `{Hash} (s : strategy) (key value : string)
    (T : HashTable) (db : DB) :
  probing s → hashes_defined s (size T) →
  let home := candidate s (size T) key 0 in
  let after := (insert s key value (T, db)).2.1 in
  collisions_count after =
    leading (λ i, other_key db (candidate s (size T) key i) key)
      (range (size T)) ∧
  (0 < size T → other_key db home key = true →
   insert_at home key value (with_stats T 0 1, db) =
     (Returns Next, (with_stats T 1 2, db)) ∧
   1 ≤ collisions_count after) ∧
  (other_key db home key = false → collisions_count after = 0).
Proof.
  intros Hs Hd home after.
  assert (Hcount : collisions_count after =
    leading (λ i, other_key db (candidate s (size T) key i) key)
      (range (size T))).
  { unfold after. rewrite insert_probing by done.
    destruct (insert_loop_spec (candidate s (size T) key) key value
                (range (size T)) (with_stats T 0 1) db)
      as (l1 & l2 & _ & _ & -> & Hrun).
    destruct l2 as [|i l2]; [by rewrite Hrun|].
    destruct Hrun as [_ Hrun].
    destruct (db !! candidate s (size T) key i) as [slot|].
    - destruct Hrun as [_ ->]. done.
    - by rewrite Hrun. }
  split; [done|]. rewrite Hcount. split.
  - intros Hn Hhome. split; [by rewrite insert_at_other|].
    unfold range. rewrite seqZ_cons by done. cbn [leading].
    fold home. rewrite Hhome.
    pose proof (leading_nonneg
      (λ i, other_key db (candidate s (size T) key i) key)
      (seqZ (Z.succ 0) (Z.pred (size T)))).
    lia.
  - intros Hhome. unfold range.
    destruct (decide (0 < size T)) as [Hn|Hn]; [|by rewrite seqZ_nil by lia].
    rewrite seqZ_cons by done. cbn [leading]. fold home. by rewrite Hhome.
Qed.

Lemma first_iteration_counts_witness :
  let w := table_after (H := sum_codes) linear_probing 3 [Insert "A" "1"] in
  let home := candidate (H := sum_codes) linear_probing 3 "D" 0 in
  let after := (insert (H := sum_codes) linear_probing "D" "2" w).2.1 in
  other_key w.2 home "D" = true ∧
  collisions_count after = 1 ∧
  insert_at home "D" "2" (with_stats w.1 0 1, w.2) =
    (Returns Next, (with_stats w.1 1 2, w.2)).
Proof.
  intros w home after.
  assert (Hs : probing linear_probing) by discriminate.
  assert (Hd : hashes_defined linear_probing (size w.1))
    by (split; [vm_compute; discriminate|discriminate]).
  assert (Hn : 0 < size w.1) by (vm_compute; reflexivity).
  assert (Hhome : other_key w.2 home "D" = true) by (vm_compute; reflexivity).
  destruct (first_iteration_counts (H := sum_codes) linear_probing "D" "2"
              w.1 w.2 Hs Hd) as (Hcount & Hfirst & _).
  split; [exact Hhome|]. split.
  - etrans; [exact Hcount|]. vm_compute. reflexivity.
  - exact (proj1 (Hfirst Hn Hhome)).
Defined.

(** C2, as the claim has it, fails: on a linear-probing table of size 1
    whose only slot holds ["A"], [insert("B", "2")] runs the single iteration
    [i = 0], finds the home slot occupied by another key, and leaves
    [collisions_count = 1]. *)
Lemma first_iteration_counts_counterexample :
  let w := table_after (H := sum_codes) linear_probing 1 [Insert "A" "1"] in
  range (size w.1) = [0] ∧
  other_key w.2 (candidate (H := sum_codes) linear_probing 1 "B" 0) "B" = true ∧
  collisions_count
    (insert_at (candidate (H := sum_codes) linear_probing 1 "B" 0) "B" "2"
       (with_stats w.1 0 1, w.2)).2.1 = 1 ∧
  insert (H := sum_codes) linear_probing "B" "2" w =
    (Raises TableFull, (with_stats w.1 1 2, w.2)) ∧
  collisions_count (insert (H := sum_codes) linear_probing "B" "2" w).2.1 ≠ 0.
Proof. vm_compute. repeat split; discriminate. Qed.



(** C4, as the code has it. No constructor checks the size: for every
    strategy, size and store the constructor returns, with the counters at
    (0, 0); it creates as empty the rows of [range(size)] that the store
    lacks and leaves every other row as it is. On an empty store the rows of
    the new table are [size] empty slots when [size] is positive, and none
    when it is not. *)
Theorem constructor_creates_slots (s : strategy) (n : Z) (db : DB) :
  (∃ db',
     new s n db = (Returns tt, (Build_HashTable n (algorithm_name s) 0 0, db')) ∧
     ∀ i, db' !! i = if decide (0 ≤ i < n)
                     then Some (default empty_slot (db !! i))
                     else db !! i) ∧
  (∃ db0,
     new s n ∅ = (Returns tt, (Build_HashTable n (algorithm_name s) 0 0, db0)) ∧
     objects_ordered db0 = replicate (Z.to_nat n) empty_slot).
Proof.
  split; [apply new_spec|].
  destruct (new_spec s n ∅) as (db0 & Hnew & Hdb0).
  exists db0. split; [done|].
  assert (Hrow : ∀ i, db0 !! i = if decide (0 ≤ i < n) then Some empty_slot
                                 else None).
  { intros i. rewrite Hdb0, lookup_empty. by destruct (decide (0 ≤ i < n)). }
  assert (Hdom : ∀ i, is_Some (db0 !! i) ↔ 0 ≤ i < n).
  { intros i. rewrite Hrow.
    destruct (decide (0 ≤ i < n)); split; done. }
  apply list_eq. intros k. unfold objects_ordered.
  rewrite (slot_indices_range db0 n Hdom).
  rewrite omap_lookup_defined
    by (apply Forall_forall; intros i Hi%elem_of_range; by apply Hdom).
  destruct (decide (Z.of_nat k < n)) as [Hk|Hk].
  - unfold range. rewrite lookup_seqZ_lt by done. cbn.
    rewrite Hrow, decide_True by lia.
    symmetry. apply lookup_replicate_2. lia.
  - unfold range. rewrite lookup_seqZ_ge by lia. cbn.
    symmetry. apply lookup_replicate_None. lia.
Qed.

(** C4, as the claim has it, fails: with size 0 and with a negative size the
    constructors return, and the table they make has no slot. *)
Lemma constructor_creates_slots_counterexample :
  new chaining 0 ∅ =
    (Returns tt, (Build_HashTable 0 "chaining" 0 0, ∅)) ∧
  new linear_probing 0 ∅ =
    (Returns tt, (Build_HashTable 0 "linear_probing" 0 0, ∅)) ∧
  new quadratic_probing (-1) ∅ =
    (Returns tt, (Build_HashTable (-1) "quadratic_probing" 0 0, ∅)) ∧
  new double_hashing (-2) ∅ =
    (Returns tt, (Build_HashTable (-2) "double_hashing" 0 0, ∅)).
Proof. repeat split. Qed.



(** C7, as the code has it. On a double-hashing table of size 2 or more,
    [_hash_function2] returns [hash(key) % (size - 1) + 1], which lies
    between 1 and [size - 1] and is not 0, and changes nothing. *)
Theorem hash_function2_range `{Hash} (key : string) (T : HashTable) (db : DB) :
  2 ≤ size T →
  let h := hash key `mod` (size T - 1) + 1 in
  DoubleHashingHashTable._hash_function2 key (T, db) = (Returns h, (T, db)) ∧
  1 ≤ h ≤ size T - 1 ∧ h ≠ 0.
Proof.
  intros Hn h. split.
  - unfold DoubleHashingHashTable._hash_function2.
    rewrite bind_get_self. cbn [fst]. by rewrite bind_py_mod by lia.
  - pose proof (Z.mod_pos_bound (hash key) (size T - 1) ltac:(lia)).
    unfold h. lia.
Qed.

Lemma hash_function2_range_witness :
  let T := Build_HashTable 10 "double_hashing" 0 0 in
  2 ≤ size T ∧
  DoubleHashingHashTable._hash_function2 (H := sum_codes) "A" (T, ∅) =
    (Returns 3, (T, ∅)) ∧
  1 ≤ 3 ≤ size T - 1.
Proof.
  intros T.
  assert (Hn : 2 ≤ size T) by (vm_compute; discriminate).
  destruct (hash_function2_range (H := sum_codes) "A" T ∅ Hn) as (Hrun & Hr & _).
  split; [exact Hn|]. split; [exact Hrun|exact Hr].
Defined.

(** C7, as the claim has it, fails on the double-hashing table of size 1:
    there [_hash_function2] raises [ZeroDivisionError], and no value lies
    between 1 and [size - 1 = 0]. *)
Lemma hash_function2_range_counterexample :
  let w := (new double_hashing 1 ∅).2 in
  size w.1 = 1 ∧
  (DoubleHashingHashTable._hash_function2 (H := sum_codes) "A" w).1 =
    Raises ZeroDivisionError ∧
  ¬ ∃ h, (DoubleHashingHashTable._hash_function2 (H := sum_codes) "A" w).1 =
           Returns h ∧ 1 ≤ h ≤ size w.1 - 1.
Proof.
  repeat split. intros (h & Hh & _). vm_compute in Hh. discriminate.
Qed.

(** C9. On a probing table built by its constructor and used through
    [insert] and [search], the entry of [get_state] for a slot whose stored
    key is false in Python ([None] or the empty string) is [None]. A slot
    that holds the empty string as its key is thus shown as [None], although
    for [insert] it is occupied: an [insert] of another key that probes it
    counts a collision and goes on to the next candidate. *)
Theorem get_state_hides_empty_key `{Hash} (s : strategy) (n : Z)
    (ops : list operation) (p : Z) (slot : HashTableSlot.t) :
  probing s →
  let w := table_after s n ops in
  w.2 !! p = Some slot →
  truthy (HashTableSlot.key_value slot) = false →
  (∃ sd, get_state w = (Returns sd, w) ∧
         sd_table sd !! Z.to_nat p = Some (Probed None)) ∧
  (HashTableSlot.key_value slot = Some "" →
   HashTableSlot.key_value slot ≠ None ∧
   ∀ key value, key ≠ "" →
     insert_at p key value w =
     (Returns Next,
      (with_stats w.1 (collisions_count w.1 + 1) (probes_count w.1 + 1), w.2))).
Proof.
  intros Hs w Hslot Hfalsy.
  destruct (table_inv_table_after s n ops Hs) as (_ & Halg & _ & Hdom).
  fold w in Halg, Hdom. destruct w as [T db]. cbn [fst snd] in *.
  split.
  - destruct (get_state_entry T db n p slot Hdom Hslot)
      as (sd & Hsd & _ & _ & Hentry).
    exists sd. split; [done|]. rewrite Hentry. f_equal.
    unfold slot_entry. rewrite Halg, decide_False by (by destruct s).
    by rewrite Hfalsy.
  - intros Hk. split; [by rewrite Hk|]. intros key value Hkey.
    apply insert_at_other. apply other_key_true.
    exists slot, "". by repeat split.
Qed.

Lemma get_state_hides_empty_key_witness :
  let w := table_after (H := sum_codes) linear_probing 3 [Insert "" "hidden"] in
  let slot := HashTableSlot.Build (Some "") (Some "hidden") [] in
  w.2 !! 0 = Some slot ∧
  (∃ sd, get_state w = (Returns sd, w) ∧
         sd_table sd !! Z.to_nat 0 = Some (Probed None)) ∧
  insert_at 0 "c" "3" w =
    (Returns Next,
     (with_stats w.1 (collisions_count w.1 + 1) (probes_count w.1 + 1), w.2)).
Proof.
  intros w slot.
  assert (Hs : probing linear_probing) by discriminate.
  assert (Hslot : w.2 !! 0 = Some slot) by (vm_compute; reflexivity).
  destruct (get_state_hides_empty_key (H := sum_codes) linear_probing 3
              [Insert "" "hidden"] 0 slot Hs Hslot eq_refl) as [Hsd Hocc].
  split; [exact Hslot|]. split; [exact Hsd|].
  apply (proj2 (Hocc eq_refl)). discriminate.
Defined.

(** ** Further properties: what [search] finds *)

Lemma candidate_range `{Hash} (s : strategy) (n : Z) (key : string) (i : Z) :
  0 < n → 0 ≤ candidate s n key i < n.
Proof. intros Hn. destruct s; cbn; apply Z.mod_pos_bound; lia. Qed.

Lemma other_key_false_key (db : DB) (p : Z) (key k0 : string)
    (slot : HashTableSlot.t) :
  other_key db p key = false → db !! p = Some slot →
  HashTableSlot.key_value slot = Some k0 → k0 = key.
Proof.
  unfold other_key. intros Hf Hp Hk. rewrite Hp, Hk in Hf.
  apply bool_decide_eq_false in Hf. by destruct (decide (k0 = key)).
Qed.

Lemma search_ignores_stats `{Hash} (s : strategy) (key : string)
    (T : HashTable) (db : DB) (c p : Z) :
  search s key (with_stats T c p, db) = search s key (T, db).
Proof.
  destruct s;
    unfold search, ChainingHashTable.search, LinearProbingHashTable.search,
      QuadraticProbingHashTable.search, DoubleHashingHashTable.search;
    rewrite !bind_reset_stats; reflexivity.
Qed.

Lemma insert_ignores_stats `{Hash} (s : strategy) (key value : string)
    (T : HashTable) (db : DB) (c p : Z) :
  insert s key value (with_stats T c p, db) = insert s key value (T, db).
Proof.
  destruct s;
    unfold insert, ChainingHashTable.insert, LinearProbingHashTable.insert,
      QuadraticProbingHashTable.insert, DoubleHashingHashTable.insert;
    rewrite !bind_reset_stats; reflexivity.
Qed.

Section search_found.
Context `{Hash}.

Lemma search_stored_key (s : strategy) (key : string) (T : HashTable)
    (db : DB) (p : Z) (slot : HashTableSlot.t) :
  probing s →
  placed s (size T) db →
  db !! p = Some slot →
  HashTableSlot.key_value slot = Some key →
  ∃ j, 0 ≤ j < size T ∧
    search s key (T, db) =
    (Returns (HashTableSlot.actual_value slot), (with_stats T 0 (1 + j), db)).
Proof.
  intros Hs Hplaced Hslot Hk.
  destruct (Hplaced p slot key Hslot Hk) as (Hd & j & Hj & Hp & Hbefore).
  exists j. split; [done|].
  rewrite search_probing by done.
  rewrite (range_decompose (size T) j Hj).
  rewrite search_loop_skip.
  2:{ apply Forall_forall. intros i Hi%elem_of_range. by apply Hbefore. }
  cbn [for_in]. rewrite bind_unfold.
  rewrite (search_at_found key _ _ db slot); [|by rewrite Hp|done].
  unfold range. rewrite length_seqZ.
  unfold with_stats. cbn. do 3 f_equal; lia.
Qed.

(** What a probing [search] does on a table that has the rows of
    [range(size)]: it returns, after at most [size] further probes, and it
    returns a value exactly when a slot holds the key with it. *)
Lemma search_probing_outcome (s : strategy) (n : Z) (key : string)
    (T : HashTable) (db : DB) :
  probing s → table_inv s n (T, db) → hashes_defined s n →
  ∃ r j,
    search s key (T, db) = (Returns r, (with_stats T 0 (1 + j), db)) ∧
    0 ≤ j ≤ Z.max 0 n ∧
    ∀ v, r = Some v ↔ holds s db key v.
Proof.
  intros Hs (Hn & _ & Hplaced & Hdom) Hd. cbn [fst snd] in *. subst n.
  assert (Hholds : ∀ v, holds s db key v ↔
    ∃ p slot, db !! p = Some slot ∧ HashTableSlot.key_value slot = Some key ∧
              HashTableSlot.actual_value slot = Some v).
  { intros v. unfold holds. by destruct s. }
  assert (Hfound : ∀ r j,
    search s key (T, db) = (Returns r, (with_stats T 0 (1 + j), db)) →
    ∀ v, holds s db key v → r = Some v).
  { intros r j Hrun v (p & slot & Hslot & Hk & Hv)%Hholds.
    destruct (search_stored_key s key T db p slot Hs Hplaced Hslot Hk)
      as (j' & _ & Hrun').
    rewrite Hrun' in Hrun. injection Hrun as <- _. done. }
  pose proof (search_probing s key T db Hs Hd) as Hrun.
  destruct (search_loop_spec (candidate s (size T) key) key
              (range (size T)) (with_stats T 0 1) db)
    as (l1 & l2 & Hl & _ & Hspec).
  cbv zeta in Hspec. rewrite <- Hrun in Hspec.
  cbn [collisions_count probes_count with_stats] in Hspec.
  assert (Hlen : 0 ≤ Z.of_nat (length l1) ≤ Z.max 0 (size T)).
  { assert (length l1 ≤ length (range (size T)))%nat as Hle
      by (rewrite Hl, length_app; lia).
    unfold range in Hle. rewrite length_seqZ in Hle. lia. }
  destruct l2 as [|i l2].
  - exists None, (Z.of_nat (length l1)). split; [exact Hspec|].
    split; [done|]. intros v. split; [done|]. by apply (Hfound _ _ Hspec).
  - destruct Hspec as [Hi Hspec].
    assert (Hin : 0 ≤ i < size T)
      by (apply elem_of_range; rewrite Hl; apply elem_of_app; right;
          apply list_elem_of_here).
    destruct (db !! candidate s (size T) key i) as [slot|] eqn:Hslot.
    2:{ exfalso.
        assert (is_Some (db !! candidate s (size T) key i)) as [? ?]
          by (apply Hdom, candidate_range; lia).
        congruence. }
    destruct (HashTableSlot.key_value slot) as [k0|] eqn:Hk.
    + assert (k0 = key) as -> by by eapply other_key_false_key.
      exists (HashTableSlot.actual_value slot), (Z.of_nat (length l1)).
      split; [exact Hspec|]. split; [done|]. intros v. split.
      * intros Hv. apply Hholds. by exists (candidate s (size T) key i), slot.
      * by apply (Hfound _ _ Hspec).
    + exists None, (Z.of_nat (length l1)). split; [exact Hspec|].
      split; [done|]. intros v. split; [done|]. by apply (Hfound _ _ Hspec).
Qed.

End search_found.

(** ** Further properties: the buckets of chaining *)

Lemma NoDup_fmap_eq {A B : Type} (f : A → B) (l : list A) (x y : A) :
  NoDup (f <$> l) → x ∈ l → y ∈ l → f x = f y → x = y.
Proof.
  induction l as [|z l IH]; [by intros _ ?%not_elem_of_nil|].
  rewrite fmap_cons, NoDup_cons.
  intros [Hz Hl] [->|Hx]%elem_of_cons [->|Hy]%elem_of_cons Hf; [done| | |auto].
  - exfalso. apply Hz. rewrite Hf. by apply list_elem_of_fmap_2.
  - exfalso. apply Hz. rewrite <- Hf. by apply list_elem_of_fmap_2.
Qed.

Lemma filter_key_NoDup (key : string) (chain : list ChainedElement.t) :
  NoDup (ChainedElement.key_value <$> chain) →
  (length (filter (λ item, ChainedElement.key_value item = key) chain) ≤ 1)%nat.
Proof.
  induction chain as [|x chain IH]; [cbn; lia|].
  rewrite fmap_cons, NoDup_cons. intros [Hx Hchain].
  rewrite filter_cons. destruct (decide (ChainedElement.key_value x = key))
    as [Hk|Hk]; [|by apply IH].
  assert (filter (λ item, ChainedElement.key_value item = key) chain = [])
    as ->; [|cbn; lia].
  destruct (filter _ chain) as [|y l] eqn:Hf; [done|]. exfalso. apply Hx.
  assert (y ∈ filter (λ item, ChainedElement.key_value item = key) chain)
    as [Hy Hin]%list_elem_of_filter by (rewrite Hf; left).
  rewrite Hk, <- Hy. by apply list_elem_of_fmap_2.
Qed.

Lemma element_save_keys (key value : string) (chain : list ChainedElement.t) :
  ChainedElement.key_value <$> ChainingHashTable.element_save key value chain
  = ChainedElement.key_value <$> chain.
Proof.
  unfold ChainingHashTable.element_save. rewrite <- list_fmap_compose.
  apply list_fmap_ext. intros _ item _. cbn.
  by destruct (decide (ChainedElement.key_value item = key)).
Qed.

Section chaining_reachable.
Context `{Hash}.

Lemma chaining_inv_new (n : Z) : chaining_inv n (new chaining n ∅).2.
Proof.
  destruct (new_spec chaining n ∅) as (db' & -> & Hdb'). cbn [snd].
  split; [done|]. split; [done|]. split.
  { intros _ i. cbn [snd]. rewrite Hdb', lookup_empty.
    destruct (decide (0 ≤ i < n)); split; done. }
  intros p slot Hslot. cbn [snd] in Hslot.
  rewrite Hdb', lookup_empty in Hslot.
  destruct (decide (0 ≤ p < n)); [|done]. injection Hslot as <-.
  split; [constructor|]. by intros item ?%not_elem_of_nil.
Qed.

(** On a table that keeps the invariant of chaining, [insert] returns unless
    the size is 0, and the table it leaves keeps the invariant. *)
Lemma chaining_inv_insert (n : Z) (key value : string) (w : world) :
  chaining_inv n w →
  chaining_inv n (insert chaining key value w).2 ∧
  (n ≠ 0 → (insert chaining key value w).1 = Returns tt).
Proof.
  destruct w as [T db]. intros (Hn & Halg & Hdom & Hinv). cbn [fst snd] in *.
  subst n.
  destruct (decide (size T = 0)) as [H0|H0].
  { rewrite insert_undefined by (by intros [? _]). split; [|done].
    by split. }
  unfold insert. pose proof (chaining_insert_spec key value T db H0) as Hspec.
  cbv zeta in Hspec.
  set (index := hash key `mod` size T) in *.
  set (slot := default empty_slot (db !! index)) in *.
  set (chain := HashTableSlot.chained_elements slot) in *.
  assert (Hchain : NoDup (ChainedElement.key_value <$> chain) ∧
                   ∀ item, item ∈ chain →
                     size T ≠ 0 ∧
                     hash (ChainedElement.key_value item) `mod` size T = index).
  { unfold chain, slot. destruct (db !! index) as [slot0|] eqn:Hslot.
    - by apply Hinv.
    - cbn. split; [constructor|]. by intros item ?%not_elem_of_nil. }
  destruct Hchain as [Hnodup Hbucket].
  pose proof (filter_key_NoDup key chain Hnodup) as Hlen.
  assert (Hrows : ∀ chain',
    NoDup (ChainedElement.key_value <$> chain') →
    (∀ item, item ∈ chain' →
       size T ≠ 0 ∧ hash (ChainedElement.key_value item) `mod` size T = index) →
    ∀ p slot',
      <[index := ChainingHashTable.with_elements slot chain']> db !! p
        = Some slot' →
      NoDup (ChainedElement.key_value <$> HashTableSlot.chained_elements slot') ∧
      ∀ item, item ∈ HashTableSlot.chained_elements slot' →
        size T ≠ 0 ∧ hash (ChainedElement.key_value item) `mod` size T = p).
  { intros chain' Hnd Hb p slot' Hslot'.
    destruct (decide (p = index)) as [->|Hne].
    - rewrite lookup_insert_eq in Hslot'. by injection Hslot' as <-.
    - rewrite lookup_insert_ne in Hslot' by done. by apply Hinv. }
  assert (Hdom' : ∀ chain', 0 < size T → ∀ i,
    is_Some (<[index := ChainingHashTable.with_elements slot chain']> db !! i)
    ↔ 0 ≤ i < size T).
  { intros chain' Hpos i. rewrite <- (Hdom Hpos).
    destruct (decide (i = index)) as [->|Hi]; [|by rewrite lookup_insert_ne].
    rewrite lookup_insert_eq. split; [intros _|done].
    apply Hdom; [done|]. apply Z.mod_pos_bound. lia. }
  destruct (filter _ chain) as [|x [|y l]] eqn:Hfilter; [| |cbn in Hlen; lia].
  - rewrite Hspec. cbn [fst snd]. split; [|done]. split; [done|].
    split; [done|]. split; [apply Hdom'|].
    apply Hrows.
    + rewrite fmap_app. cbn. apply NoDup_app. split; [done|]. split.
      * intros k Hk ->%list_elem_of_singleton.
        apply list_elem_of_fmap in Hk as (item & Hkey & Hin).
        assert (item ∈ filter
          (λ item, ChainedElement.key_value item = key) chain) as Hf
          by by apply list_elem_of_filter.
        rewrite Hfilter in Hf. by apply not_elem_of_nil in Hf.
      * apply NoDup_singleton.
    + intros item [Hin| ->%list_elem_of_singleton]%elem_of_app; [by apply Hbucket|].
      done.
  - rewrite Hspec. cbn [fst snd]. split; [|done]. split; [done|].
    split; [done|]. split; [apply Hdom'|].
    apply Hrows.
    + by rewrite element_save_keys.
    + intros item Hin.
      assert (ChainedElement.key_value item ∈
              ChainedElement.key_value <$> chain) as Hk.
      { rewrite <- (element_save_keys key value). by apply list_elem_of_fmap_2. }
      apply list_elem_of_fmap in Hk as (item' & -> & Hin'). by apply Hbucket.
Qed.

Lemma chaining_inv_run (n : Z) (ops : list operation) (w : world) :
  chaining_inv n w → chaining_inv n (run chaining ops w).
Proof.
  revert w. induction ops as [|o ops IH]; intros w Hw; [done|].
  change (run chaining (o :: ops) w)
    with (run chaining ops (run_operation chaining o w)).
  apply IH. destruct o as [key value|key]; unfold run_operation.
  - by apply chaining_inv_insert.
  - destruct (search_reads chaining key w) as (r & p & ->).
    destruct Hw as (Hn & Halg & Hdom & Hinv). split; [done|].
    split; [done|]. by split.
Qed.

Lemma chaining_inv_table_after (n : Z) (ops : list operation) :
  chaining_inv n (table_after chaining n ops).
Proof. apply chaining_inv_run, chaining_inv_new. Qed.

(** What the chaining [search] does on a table that keeps the invariant. *)
Lemma search_chaining_outcome (n : Z) (key : string) (T : HashTable)
    (db : DB) :
  chaining_inv n (T, db) → n ≠ 0 →
  ∃ r j,
    search chaining key (T, db) = (Returns r, (with_stats T 0 (1 + j), db)) ∧
    0 ≤ j ∧
    ∀ v, r = Some v ↔ holds chaining db key v.
Proof.
  intros (Hn & _ & _ & Hinv) H0. cbn [fst snd] in *. subst n.
  unfold search. rewrite chaining_search_spec by done.
  set (index := hash key `mod` size T).
  assert (Hother : ∀ p slot v,
    db !! p = Some slot →
    ChainedElement.Build key v ∈ HashTableSlot.chained_elements slot →
    p = index ∧
    first_value key (HashTableSlot.chained_elements slot) = Some v).
  { intros p slot v Hslot Hin.
    destruct (Hinv p slot Hslot) as [Hnodup Hbucket].
    split; [by destruct (Hbucket _ Hin) as [_ <-]|].
    apply first_value_unique; [by eexists|].
    intros item Hitem Hk.
    by rewrite (NoDup_fmap_eq ChainedElement.key_value _ item
                  (ChainedElement.Build key v) Hnodup Hitem Hin Hk). }
  destruct (db !! index) as [slot|] eqn:Hslot.
  - exists (first_value key (HashTableSlot.chained_elements slot)),
      (scanned key (HashTableSlot.chained_elements slot)).
    split; [done|]. split.
    { unfold scanned. destruct (list_find _ _) as [[i x]|]; cbn; lia. }
    intros v. split.
    + unfold first_value.
      destruct (list_find _ _) as [[i [k v']]|] eqn:Hfind; [|done].
      cbn. intros [= ->].
      apply list_find_Some in Hfind as (Hx & Hk & _). cbn in Hk. subst k.
      exists index, slot. split; [done|]. by eapply list_elem_of_lookup_2.
    + intros (p & slot' & Hslot' & Hin).
      destruct (Hother p slot' v Hslot' Hin) as [-> Hfirst].
      rewrite Hslot in Hslot'. by injection Hslot' as ->.
  - exists None, 0. split; [done|]. split; [done|]. intros v. split; [done|].
    intros (p & slot' & Hslot' & Hin).
    destruct (Hother p slot' v Hslot' Hin) as [-> _]. congruence.
Qed.

End chaining_reachable.

(** ** Further properties: tables built by the constructor *)

Section built_tables.
Context `{Hash}.

Lemma table_after_snoc (s : strategy) (n : Z) (ops : list operation)
    (o : operation) :
  run_operation s o (table_after s n ops) = table_after s n (ops ++ [o]).
Proof. unfold table_after, run. by rewrite foldl_app. Qed.

Lemma size_table_after (s : strategy) (n : Z) (ops : list operation) :
  size (table_after s n ops).1 = n.
Proof.
  destruct (decide (s = chaining)) as [->|Hs].
  - by destruct (chaining_inv_table_after n ops).
  - by destruct (table_inv_table_after s n ops Hs).
Qed.

(** Nothing is held by a built table whose hashes are not defined. *)
Lemma holds_hashes_defined (s : strategy) (n : Z) (ops : list operation)
    (key v : string) :
  holds s (table_after s n ops).2 key v → hashes_defined s n.
Proof.
  intros (p & slot & Hslot & Hheld).
  destruct (decide (s = chaining)) as [->|Hs].
  - destruct (chaining_inv_table_after n ops) as (_ & _ & _ & Hinv).
    destruct (Hinv p slot Hslot) as [_ Hbucket].
    destruct (Hbucket _ Hheld) as [Hn _]. by split.
  - destruct (table_inv_table_after s n ops Hs) as (_ & _ & Hplaced & _).
    assert (HashTableSlot.key_value slot = Some key) as Hk
      by (destruct s; try done; by destruct Hheld).
    by destruct (Hplaced p slot key Hslot Hk) as [? _].
Qed.

(** [search] on a built table: it raises [ZeroDivisionError] when the hashes
    are not defined; otherwise it returns, and it returns a value exactly
    when the store holds the key with it. *)
Lemma search_built_table (s : strategy) (n : Z) (ops : list operation)
    (key : string) :
  let w := table_after s n ops in
  if decide (hashes_defined s n)
  then ∃ r j, search s key w = (Returns r, (with_stats w.1 0 (1 + j), w.2)) ∧
              0 ≤ j ∧ ∀ v, r = Some v ↔ holds s w.2 key v
  else search s key w = (Raises ZeroDivisionError, (with_stats w.1 0 0, w.2)).
Proof.
  intros w. pose proof (size_table_after s n ops) as Hn. fold w in Hn.
  destruct (decide (hashes_defined s n)) as [Hd|Hd].
  - destruct (decide (s = chaining)) as [->|Hs].
    + pose proof (chaining_inv_table_after n ops) as Hinv. fold w in Hinv.
      destruct w as [T db]. destruct Hd as [H0 _].
      destruct (search_chaining_outcome n key T db Hinv H0)
        as (r & j & Hrun & Hj & Hr).
      by exists r, j.
    + pose proof (table_inv_table_after s n ops Hs) as Hinv. fold w in Hinv.
      destruct w as [T db].
      destruct (search_probing_outcome s n key T db Hs Hinv Hd)
        as (r & j & Hrun & Hj & Hr).
      exists r, j. split; [done|]. split; [lia|done].
  - destruct w as [T db]. cbn [fst snd] in *. subst n.
    by apply search_undefined.
Qed.

(** An [insert] changes nothing of what the store holds for the other
    keys. *)
Lemma holds_insert_other (s : strategy) (key value key' v : string)
    (w : world) :
  key' ≠ key →
  holds s (insert s key value w).2.2 key' v ↔ holds s w.2 key' v.
Proof.
  intros Hne. destruct w as [T db].
  destruct (decide (s = chaining)) as [->|Hs].
  - destruct (decide (size T = 0)) as [H0|H0].
    { by rewrite insert_undefined by (by intros [? _]). }
    unfold insert at 1.
    pose proof (chaining_insert_spec key value T db H0) as Hspec.
    cbv zeta in Hspec.
    set (index := hash key `mod` size T) in *.
    set (slot := default empty_slot (db !! index)) in *.
    set (chain := HashTableSlot.chained_elements slot) in *.
    assert (Hrows : ∀ chain',
      (ChainedElement.Build key' v ∈ chain' ↔
       ChainedElement.Build key' v ∈ chain) →
      holds chaining
        (<[index := ChainingHashTable.with_elements slot chain']> db) key' v ↔
      holds chaining db key' v).
    { intros chain' Hsame. unfold holds. split.
      - intros (p & slot' & Hslot' & Hin).
        destruct (decide (p = index)) as [->|Hp].
        + rewrite lookup_insert_eq in Hslot'. injection Hslot' as <-.
          cbn in Hin. apply Hsame in Hin. unfold chain, slot in Hin.
          destruct (db !! index) as [slot0|] eqn:Hslot0.
          * by exists index, slot0.
          * by apply not_elem_of_nil in Hin.
        + rewrite lookup_insert_ne in Hslot' by done. by exists p, slot'.
      - intros (p & slot' & Hslot' & Hin).
        destruct (decide (p = index)) as [->|Hp].
        + exists index, (ChainingHashTable.with_elements slot chain').
          rewrite lookup_insert_eq. split; [done|]. cbn. apply Hsame.
          unfold chain, slot. by rewrite Hslot'.
        + exists p, slot'. by rewrite lookup_insert_ne. }
    destruct (filter _ chain) as [|x [|y l]]; rewrite Hspec; cbn [snd];
      [| |done].
    + apply Hrows. rewrite elem_of_app, list_elem_of_singleton.
      split; [intros [?|[= ? _]]; done|by left].
    + apply Hrows. unfold ChainingHashTable.element_save.
      rewrite list_elem_of_fmap. split.
      * intros (y & Hy & Hin).
        destruct (decide (ChainedElement.key_value y = key)) as [|Hky];
          [by injection Hy|by subst].
      * intros Hin. exists (ChainedElement.Build key' v). split; [|done].
        cbn. by rewrite decide_False.
  - destruct (insert s key value (T, db)) as [[[]|e] w'] eqn:Hins.
    2:{ pose proof (insert_probing_raises s key value (T, db) e Hs) as Hsame.
        rewrite Hins in Hsame. cbn [fst snd] in *. by rewrite Hsame. }
    apply insert_probing_returns in Hins
      as (_ & l1 & i & l2 & slot & _ & _ & _ & Hslot & Hk & ->); [|done].
    cbn [snd]. set (p := candidate s (size T) key i) in *.
    assert (Hholds : ∀ db0 : DB, holds s db0 key' v ↔
      ∃ q slot', db0 !! q = Some slot' ∧
                 HashTableSlot.key_value slot' = Some key' ∧
                 HashTableSlot.actual_value slot' = Some v).
    { intros db0. unfold holds. by destruct s. }
    rewrite !Hholds. split.
    + intros (q & slot' & Hslot' & Hk' & Hv').
      destruct (decide (q = p)) as [->|Hq].
      * rewrite lookup_insert_eq in Hslot'. injection Hslot' as <-.
        cbn in Hk'. by injection Hk'.
      * rewrite lookup_insert_ne in Hslot' by done. by exists q, slot'.
    + intros (q & slot' & Hslot' & Hk' & Hv'). exists q, slot'.
      rewrite lookup_insert_ne; [done|]. intros <-.
      rewrite Hslot in Hslot'. injection Hslot' as <-.
      destruct Hk as [Hk|Hk]; rewrite Hk in Hk'; [done|by injection Hk'].
Qed.

(** On a built table, [search] of another key returns the same before and
    after an [insert]. *)
Lemma search_after_insert_other (s : strategy) (n : Z) (ops : list operation)
    (key value key' : string) :
  key' ≠ key →
  let w := table_after s n ops in
  (search s key' (insert s key value w).2).1 = (search s key' w).1.
Proof.
  intros Hne w.
  pose proof (search_built_table s n ops key') as Hbefore.
  pose proof (search_built_table s n (ops ++ [Insert key value]) key')
    as Hafter.
  rewrite <- table_after_snoc in Hafter. cbv zeta in Hbefore, Hafter.
  fold w in Hbefore, Hafter. unfold run_operation in Hafter.
  destruct (decide (hashes_defined s n)) as [Hd|Hd].
  - destruct Hbefore as (r & j & -> & _ & Hr).
    destruct Hafter as (r' & j' & -> & _ & Hr'). cbn [fst]. f_equal.
    assert (Hsame : ∀ v, r' = Some v ↔ r = Some v).
    { intros v. rewrite Hr, Hr'. by apply holds_insert_other. }
    destruct r' as [v'|].
    + symmetry. by apply Hsame.
    + destruct r as [v|]; [|done]. by apply Hsame.
  - by rewrite Hbefore, Hafter.
Qed.

(** [insert] on a built table returns, or raises [TableFull] (probing), or
    raises [ZeroDivisionError] when the hashes are not defined. *)
Lemma insert_built_table (s : strategy) (n : Z) (ops : list operation)
    (key value : string) :
  let r := (insert s key value (table_after s n ops)).1 in
  if decide (hashes_defined s n)
  then r = Returns tt ∨ (probing s ∧ r = Raises TableFull)
  else r = Raises ZeroDivisionError.
Proof.
  set (w := table_after s n ops). cbv zeta.
  pose proof (size_table_after s n ops) as Hn. fold w in Hn.
  destruct (decide (hashes_defined s n)) as [Hd|Hd].
  - destruct (decide (s = chaining)) as [->|Hs].
    + left. pose proof (chaining_inv_table_after n ops) as Hinv. fold w in Hinv.
      destruct Hd as [H0 _].
      by apply (proj2 (chaining_inv_insert n key value w Hinv)).
    + destruct (table_inv_table_after s n ops Hs) as (_ & _ & _ & Hdom).
      fold w in Hdom. destruct w as [T db]. cbn [fst snd] in *. subst n.
      rewrite insert_probing by done.
      destruct (insert_loop_spec (candidate s (size T) key) key value
                  (range (size T)) (with_stats T 0 1) db)
        as (l1 & l2 & Hl & _ & _ & Hrun).
      destruct l2 as [|i l2]; [right; by rewrite Hrun|].
      destruct Hrun as [_ Hrun].
      assert (Hin : 0 ≤ i < size T)
        by (apply elem_of_range; rewrite Hl; apply elem_of_app; right;
            apply list_elem_of_here).
      destruct (db !! candidate s (size T) key i) as [slot|] eqn:Hslot.
      * destruct Hrun as [_ ->]. by left.
      * exfalso.
        assert (is_Some (db !! candidate s (size T) key i)) as [? ?]
          by (apply Hdom, candidate_range; lia).
        congruence.
  - destruct w as [T db]. cbn [fst snd] in *. subst n.
    by rewrite insert_undefined.
Qed.

End built_tables.

(** ** Further properties *)

(** X1. [search], of every strategy and on every table, writes nothing: the
    store, the size and the name of the table are what they were, and
    [collisions_count] is 0 after it. *)
Theorem search_never_writes `{Hash} (s : strategy) (key : string) (w : world) :
  (search s key w).2.2 = w.2 ∧
  size (search s key w).2.1 = size w.1 ∧
  algorithm_type (search s key w).2.1 = algorithm_type w.1 ∧
  collisions_count (search s key w).2.1 = 0.
Proof. by destruct (search_reads s key w) as (r & p & ->). Qed.

(** X2. On a table built by its constructor on an empty store and used
    through [insert] and [search], of any strategy and size, [search(key)]
    returns a value exactly when the store holds the key with that value. *)
Theorem search_finds_what_is_held `{Hash} (s : strategy) (n : Z)
    (ops : list operation) (key v : string) :
  let w := table_after s n ops in
  (search s key w).1 = Returns (Some v) ↔ holds s w.2 key v.
Proof.
  intros w. pose proof (search_built_table s n ops key) as Hsearch.
  cbv zeta in Hsearch. fold w in Hsearch.
  destruct (decide (hashes_defined s n)) as [Hd|Hd].
  - destruct Hsearch as (r & j & -> & _ & Hr). cbn [fst]. rewrite <- Hr.
    split; [by intros [= ->]|by intros ->].
  - rewrite Hsearch. cbn [fst]. split; [done|].
    by intros Hd'%holds_hashes_defined.
Qed.

(** X3. On a built table [search] raises nothing but [ZeroDivisionError],
    and raises it exactly when a hash divides by zero (size 0, or size 1
    for double hashing); otherwise it returns, with [None] for a key that
    the store does not hold. *)
Theorem search_raises_only_zero_division `{Hash} (s : strategy) (n : Z)
    (ops : list operation) (key : string) :
  let w := table_after s n ops in
  (hashes_defined s n →
   ∃ r, (search s key w).1 = Returns r ∧
        ((∀ v, ¬ holds s w.2 key v) → r = None)) ∧
  (¬ hashes_defined s n → (search s key w).1 = Raises ZeroDivisionError).
Proof.
  intros w. pose proof (search_built_table s n ops key) as Hsearch.
  cbv zeta in Hsearch. fold w in Hsearch.
  destruct (decide (hashes_defined s n)) as [Hd|Hd]; split; try done.
  - intros _. destruct Hsearch as (r & j & -> & _ & Hr). exists r.
    split; [done|]. intros Habsent. destruct r as [v|]; [|done].
    by destruct (Habsent v); apply Hr.
  - intros _. by rewrite Hsearch.
Qed.

Lemma search_raises_only_zero_division_witness :
  let w := table_after (H := sum_codes) quadratic_probing 3 [Insert "A" "1"] in
  let w0 := table_after (H := sum_codes) double_hashing 1 [Insert "A" "1"] in
  (∃ r, (search (H := sum_codes) quadratic_probing "D" w).1 = Returns r) ∧
  (search (H := sum_codes) double_hashing "A" w0).1 = Raises ZeroDivisionError.
Proof.
  intros w w0. split.
  - assert (Hd : hashes_defined quadratic_probing 3) by (split; discriminate).
    destruct (proj1 (search_raises_only_zero_division (H := sum_codes)
                       quadratic_probing 3 [Insert "A" "1"] "D") Hd)
      as (r & Hr & _).
    by exists r.
  - apply (proj2 (search_raises_only_zero_division (H := sum_codes)
                    double_hashing 1 [Insert "A" "1"] "A")).
    intros [_ Hd]. by apply Hd.
Defined.

(** X4. On a built table [insert] returns, or raises [TableFull] (probing
    strategies only), or raises [ZeroDivisionError] when a hash divides by
    zero; it raises nothing else. The chaining [insert] returns whenever the
    size is not 0. *)
Theorem insert_outcomes `{Hash} (s : strategy) (n : Z) (ops : list operation)
    (key value : string) :
  let r := (insert s key value (table_after s n ops)).1 in
  (hashes_defined s n → r = Returns tt ∨ (probing s ∧ r = Raises TableFull)) ∧
  (¬ hashes_defined s n → r = Raises ZeroDivisionError).
Proof.
  pose proof (insert_built_table s n ops key value) as Hins.
  cbv zeta in Hins |- *.
  destruct (decide (hashes_defined s n)) as [Hd|Hd]; by split.
Qed.

Lemma insert_outcomes_witness :
  (insert (H := sum_codes) chaining "A" "2"
     (table_after (H := sum_codes) chaining 2
        [Insert "A" "1"; Insert "C" "2"])).1 = Returns tt ∧
  (insert (H := sum_codes) linear_probing "A" "2"
     (table_after (H := sum_codes) linear_probing 0 [])).1
  = Raises ZeroDivisionError.
Proof.
  split.
  - assert (Hd : hashes_defined chaining 2) by (split; discriminate).
    destruct (proj1 (insert_outcomes (H := sum_codes) chaining 2
                       [Insert "A" "1"; Insert "C" "2"] "A" "2") Hd)
      as [Hr|[Hs _]]; [exact Hr|by destruct Hs].
  - apply (proj2 (insert_outcomes (H := sum_codes) linear_probing 0 []
                    "A" "2")).
    intros [Hd _]. by apply Hd.
Defined.

(** X5. A built probing table holds a key in at most one slot. *)
Theorem stored_keys_unique `{Hash} (s : strategy) (n : Z)
    (ops : list operation) (key : string) (p1 p2 : Z)
    (slot1 slot2 : HashTableSlot.t) :
  probing s →
  let w := table_after s n ops in
  w.2 !! p1 = Some slot1 → HashTableSlot.key_value slot1 = Some key →
  w.2 !! p2 = Some slot2 → HashTableSlot.key_value slot2 = Some key →
  p1 = p2.
Proof.
  intros Hs w Hslot1 Hk1 Hslot2 Hk2.
  destruct (table_inv_table_after s n ops Hs) as (_ & _ & Hplaced & _).
  fold w in Hplaced.
  destruct (Hplaced p1 slot1 key Hslot1 Hk1) as (_ & j1 & Hj1 & <- & Hb1).
  destruct (Hplaced p2 slot2 key Hslot2 Hk2) as (_ & j2 & Hj2 & <- & Hb2).
  assert (Hself : ∀ j slot, w.2 !! candidate s n key j = Some slot →
            HashTableSlot.key_value slot = Some key →
            other_key w.2 (candidate s n key j) key = false).
  { intros j slot Hslot Hk. unfold other_key. rewrite Hslot, Hk.
    apply bool_decide_eq_false. by intros []. }
  destruct (Z.lt_trichotomy j1 j2) as [Hlt|[->|Hlt]]; [|done|].
  - specialize (Hb2 j1 ltac:(lia)).
    rewrite (Hself j1 slot1 Hslot1 Hk1) in Hb2. done.
  - specialize (Hb1 j2 ltac:(lia)).
    rewrite (Hself j2 slot2 Hslot2 Hk2) in Hb1. done.
Qed.

Lemma stored_keys_unique_witness :
  let w := table_after (H := sum_codes) linear_probing 3
             [Insert "A" "1"; Insert "D" "2"; Insert "A" "3"] in
  w.2 !! 2 = Some (HashTableSlot.Build (Some "A") (Some "3") []) ∧ 2 = 2.
Proof.
  intros w.
  assert (Hslot : w.2 !! 2 = Some (HashTableSlot.Build (Some "A") (Some "3") []))
    by (vm_compute; reflexivity).
  split; [exact Hslot|].
  apply (stored_keys_unique (H := sum_codes) linear_probing 3
           [Insert "A" "1"; Insert "D" "2"; Insert "A" "3"] "A" 2 2 _ _
           ltac:(discriminate) Hslot eq_refl Hslot eq_refl).
Defined.

(** X6. In a built chaining table the keys of a bucket are pairwise
    distinct, and every element is in the bucket of index
    [hash(key) % size]. *)
Theorem bucket_keys_distinct `{Hash} (n : Z) (ops : list operation) (p : Z)
    (slot : HashTableSlot.t) :
  let w := table_after chaining n ops in
  w.2 !! p = Some slot →
  NoDup (ChainedElement.key_value <$> HashTableSlot.chained_elements slot) ∧
  ∀ item, item ∈ HashTableSlot.chained_elements slot →
          hash (ChainedElement.key_value item) `mod` n = p.
Proof.
  intros w Hslot. destruct (chaining_inv_table_after n ops) as (_ & _ & _ & Hinv).
  destruct (Hinv p slot Hslot) as [Hnodup Hbucket]. split; [done|].
  intros item Hin. by destruct (Hbucket item Hin).
Qed.

Lemma bucket_keys_distinct_witness :
  let w := table_after (H := sum_codes) chaining 2
             [Insert "A" "1"; Insert "C" "2"; Insert "A" "3"] in
  let slot := HashTableSlot.Build None None
                [ChainedElement.Build "A" "3"; ChainedElement.Build "C" "2"] in
  w.2 !! 1 = Some slot ∧
  NoDup (ChainedElement.key_value <$> HashTableSlot.chained_elements slot).
Proof.
  intros w slot.
  assert (Hslot : w.2 !! 1 = Some slot) by (vm_compute; reflexivity).
  split; [exact Hslot|].
  exact (proj1 (bucket_keys_distinct (H := sum_codes) 2
                  [Insert "A" "1"; Insert "C" "2"; Insert "A" "3"] 1 slot
                  Hslot)).
Defined.

(** X7. On a built table of any strategy, an [insert] of one key, whether
    it returns or raises, changes nothing for the other keys: [search] of
    another key returns after it what it returned before it. *)
Theorem insert_keeps_other_keys `{Hash} (s : strategy) (n : Z)
    (ops : list operation) (key value key' : string) :
  key' ≠ key →
  let w := table_after s n ops in
  (search s key' (insert s key value w).2).1 = (search s key' w).1.
Proof. apply search_after_insert_other. Qed.

Lemma insert_keeps_other_keys_witness :
  let w := table_after (H := sum_codes) quadratic_probing 5
             [Insert "A" "1"; Insert "F" "2"] in
  (search (H := sum_codes) quadratic_probing "F"
     (insert (H := sum_codes) quadratic_probing "K" "3" w).2).1 =
  (search (H := sum_codes) quadratic_probing "F" w).1.
Proof.
  intros w.
  apply (insert_keeps_other_keys (H := sum_codes) quadratic_probing 5
           [Insert "A" "1"; Insert "F" "2"] "K" "3" "F").
  discriminate.
Defined.

Lemma insert_search_any `{Hash} (s : strategy) (key value : string)
    (w : world) :
  (insert s key value w).1 = Returns tt →
  (search s key (insert s key value w).2).1 = Returns (Some value).
Proof.
  intros Hins. destruct (insert s key value w) as [r w'] eqn:Hrun.
  cbn [fst snd] in *. subst r.
  destruct (decide (s = chaining)) as [->|Hs].
  - by apply (chaining_insert_search key value w w').
  - by apply (probing_insert_search s key value w w').
Qed.

Lemma search_after_operations `{Hash} (s : strategy) (n : Z) (key : string)
    (r : outcome (option string)) (ops' ops : list operation) :
  existsb (inserts key) ops' = false →
  (search s key (table_after s n ops)).1 = r →
  (search s key (run s ops' (table_after s n ops))).1 = r.
Proof.
  revert ops. induction ops' as [|o ops' IH]; intros ops Hno Hr; [done|].
  cbn [existsb] in Hno. apply orb_false_iff in Hno as [Ho Hno].
  change (run s (o :: ops') (table_after s n ops))
    with (run s ops' (run_operation s o (table_after s n ops))).
  rewrite table_after_snoc. apply IH; [done|].
  rewrite <- table_after_snoc. rewrite <- Hr.
  destruct o as [k v|k]; unfold run_operation.
  - apply search_after_insert_other. cbn in Ho.
    apply bool_decide_eq_false in Ho. congruence.
  - destruct (search_reads s k (table_after s n ops)) as (r' & p & ->).
    cbn [snd]. destruct (table_after s n ops) as [T db]. cbn [fst snd].
    by rewrite search_ignores_stats.
Qed.

(** X8. On a built table of any strategy, a key whose [insert] returned is
    found with its value after any further calls of [insert] and [search]
    that do not insert that key again, whether these return or raise. *)
Theorem inserted_key_stays_found `{Hash} (s : strategy) (n : Z)
    (ops ops' : list operation) (key value : string) :
  let w := table_after s n ops in
  (insert s key value w).1 = Returns tt →
  existsb (inserts key) ops' = false →
  (search s key (run s ops' (insert s key value w).2)).1 = Returns (Some value).
Proof.
  intros w Hins Hno.
  change (insert s key value w).2 with (run_operation s (Insert key value) w).
  unfold w. rewrite table_after_snoc.
  apply search_after_operations; [done|].
  rewrite <- table_after_snoc. by apply insert_search_any.
Qed.

Lemma inserted_key_stays_found_witness :
  let w := table_after (H := sum_codes) double_hashing 5 [Insert "A" "1"] in
  let ops' := [Insert "F" "2"; Search "A"; Insert "K" "3"; Insert "F" "4"] in
  (search (H := sum_codes) double_hashing "B"
     (run (H := sum_codes) double_hashing ops'
        (insert (H := sum_codes) double_hashing "B" "9" w).2)).1
  = Returns (Some "9").
Proof.
  intros w ops'.
  apply (inserted_key_stays_found (H := sum_codes) double_hashing 5
           [Insert "A" "1"] ops' "B" "9"); vm_compute; reflexivity.
Defined.

(** The candidates of linear probing are all the slots. *)
Lemma linear_candidates_cover `{Hash} (n : Z) (key : string) (p : Z) :
  0 ≤ p < n → ∃ i, 0 ≤ i < n ∧ candidate linear_probing n key i = p.
Proof.
  intros Hp. exists ((p - hash key `mod` n) `mod` n). split.
  - apply Z.mod_pos_bound. lia.
  - cbn. rewrite Z.add_mod_idemp_r by lia.
    replace (hash key `mod` n + (p - hash key `mod` n)) with p by lia.
    apply Z.mod_small. lia.
Qed.

(** X9. A linear-probing [insert] on a table of positive size raises
    [TableFull] exactly when every slot of the table is occupied by a key
    other than the one inserted: it never gives up while a slot is empty. *)
Theorem linear_probing_full_iff_no_slot `{Hash} (key value : string)
    (T : HashTable) (db : DB) :
  0 < size T →
  (insert linear_probing key value (T, db)).1 = Raises TableFull ↔
  ∀ p, 0 ≤ p < size T → other_key db p key = true.
Proof.
  intros Hn.
  rewrite insert_probing_table_full; [|discriminate|split; [lia|discriminate]].
  split.
  - intros Hall p Hp.
    destruct (linear_candidates_cover (size T) key p Hp) as (i & Hi & <-).
    by apply Hall.
  - intros Hall i Hi. apply Hall, candidate_range. lia.
Qed.

Lemma linear_probing_full_iff_no_slot_witness :
  let T := Build_HashTable 3 "linear_probing" 0 0 in
  let db := (table_after (H := sum_codes) linear_probing 3
               [Insert "A" "1"; Insert "D" "2"]).2 in
  0 < size T ∧
  ((insert (H := sum_codes) linear_probing "G" "3" (T, db)).1
     = Raises TableFull ↔
   ∀ p, 0 ≤ p < size T → other_key db p "G" = true).
Proof.
  intros T db.
  assert (Hn : 0 < size T) by (vm_compute; reflexivity).
  split; [exact Hn|].
  exact (linear_probing_full_iff_no_slot (H := sum_codes) "G" "3" T db Hn).
Defined.




Lemma leading_decompose {X : Type} (f : X → bool) (l1 l2 : list X) :
  Forall (λ x, f x = true) l1 →
  match l2 with [] => True | x :: _ => f x = false end →
  leading f (l1 ++ l2) = Z.of_nat (length l1).
Proof.
  intros Hl1 Hl2. induction Hl1 as [|x l1 Hx _ IH].
  - destruct l2 as [|x l2]; [done|]. simpl. by rewrite Hl2.
  - simpl. rewrite Hx, IH. lia.
Qed.

(** The counters after a probing [insert] and [search] whose hashes are
    defined. *)
Lemma probing_counters `{Hash} (s : strategy) (key value : string)
    (T : HashTable) (db : DB) :
  probing s → hashes_defined s (size T) →
  let c := leading (λ i, other_key db (candidate s (size T) key i) key)
             (range (size T)) in
  collisions_count (insert s key value (T, db)).2.1 = c ∧
  probes_count (insert s key value (T, db)).2.1 = c + 1 ∧
  probes_count (search s key (T, db)).2.1 = c + 1 ∧
  0 ≤ c ≤ Z.max 0 (size T).
Proof.
  intros Hs Hd c.
  assert (Hc : 0 ≤ c ≤ Z.max 0 (size T)).
  { split; [apply leading_nonneg|].
    etrans; [apply leading_le_length|]. unfold range.
    rewrite length_seqZ. lia. }
  assert (Hins : collisions_count (insert s key value (T, db)).2.1 = c ∧
                 probes_count (insert s key value (T, db)).2.1 = c + 1).
  { rewrite insert_probing by done.
    destruct (insert_loop_spec (candidate s (size T) key) key value
                (range (size T)) (with_stats T 0 1) db)
      as (l1 & l2 & _ & _ & Hlead & Hrun).
    fold c in Hlead. rewrite Hlead.
    destruct l2 as [|i l2]; [rewrite Hrun; cbn; lia|].
    destruct Hrun as [_ Hrun].
    destruct (db !! candidate s (size T) key i) as [slot|].
    - destruct Hrun as [_ ->]. cbn. lia.
    - rewrite Hrun. cbn. lia. }
  destruct Hins as [Hcol Hpro]. repeat split; try done; try lia.
  rewrite search_probing by done.
  destruct (search_loop_spec (candidate s (size T) key) key
              (range (size T)) (with_stats T 0 1) db)
    as (l1 & l2 & Hl & Hl1 & Hrun).
  cbv zeta in Hrun.
  assert (Hlead : c = Z.of_nat (length l1)).
  { unfold c. rewrite Hl. apply leading_decompose; [done|].
    destruct l2 as [|i l2]; [done|]. by destruct Hrun. }
  destruct l2 as [|i l2]; [rewrite Hrun; cbn; lia|].
  destruct Hrun as [_ Hrun].
  destruct (db !! candidate s (size T) key i) as [slot|].
  - destruct (HashTableSlot.key_value slot); rewrite Hrun; cbn; lia.
  - rewrite Hrun. cbn. lia.
Qed.

(** X11. After a probing [insert] on any table whose hashes are defined,
    [probes_count = collisions_count + 1], and [collisions_count] is the
    number of candidates passed over, between 0 and the size; a [search] of
    the same key on the same table counts the same probes as the
    [insert]. *)
Theorem probing_counters_agree `{Hash} (s : strategy) (key value : string)
    (w : world) :
  probing s → hashes_defined s (size w.1) →
  let after := (insert s key value w).2.1 in
  probes_count after = collisions_count after + 1 ∧
  0 ≤ collisions_count after ≤ Z.max 0 (size w.1) ∧
  probes_count (search s key w).2.1 = probes_count after.
Proof.
  intros Hs Hd. destruct w as [T db]. cbn [fst] in Hd.
  destruct (probing_counters s key value T db Hs Hd) as (Hc & Hp & Hps & Hb).
  cbv zeta. cbn [fst]. rewrite Hc, Hp, Hps. repeat split; lia.
Qed.

Lemma probing_counters_agree_witness :
  let w := table_after (H := sum_codes) linear_probing 5
             [Insert "A" "1"; Insert "F" "2"; Insert "B" "3"] in
  let after := (insert (H := sum_codes) linear_probing "K" "4" w).2.1 in
  collisions_count after = 3 ∧
  probes_count after = collisions_count after + 1 ∧
  probes_count (search (H := sum_codes) linear_probing "K" w).2.1
  = probes_count after.
Proof.
  intros w after.
  assert (Hs : probing linear_probing) by discriminate.
  assert (Hd : hashes_defined linear_probing (size w.1))
    by (split; [vm_compute; discriminate|discriminate]).
  destruct (probing_counters_agree (H := sum_codes) linear_probing "K" "4" w
              Hs Hd) as (Hp & _ & Hps).
  split; [vm_compute; reflexivity|]. split; [exact Hp|exact Hps].
Defined.

(** X12. The counters of chaining, on any table of size other than 0:
    [insert] counts one probe, and one collision exactly when the bucket of
    the key had an element before the call; [search] counts no collision
    and one probe, plus one for each element it looks at, at most the
    length of the bucket. *)
Theorem chaining_counters `{Hash} (key value : string) (T : HashTable)
    (db : DB) :
  size T ≠ 0 →
  let chain := HashTableSlot.chained_elements
                 (default empty_slot (db !! (hash key `mod` size T))) in
  probes_count (insert chaining key value (T, db)).2.1 = 1 ∧
  collisions_count (insert chaining key value (T, db)).2.1
    = (if bool_decide (chain ≠ []) then 1 else 0) ∧
  collisions_count (search chaining key (T, db)).2.1 = 0 ∧
  probes_count (search chaining key (T, db)).2.1 = 1 + scanned key chain ∧
  1 ≤ probes_count (search chaining key (T, db)).2.1
    ≤ 1 + Z.of_nat (length chain).
Proof.
  intros Hn chain.
  assert (Hscan : 0 ≤ scanned key chain ≤ Z.of_nat (length chain)).
  { unfold scanned.
    destruct (list_find _ chain) as [[i x]|] eqn:Hfind; cbn; [|lia].
    apply list_find_Some in Hfind as (Hx%lookup_lt_Some & _). lia. }
  assert (Hsearch : collisions_count (search chaining key (T, db)).2.1 = 0 ∧
    probes_count (search chaining key (T, db)).2.1 = 1 + scanned key chain).
  { unfold search. rewrite chaining_search_spec by done. unfold chain.
    by destruct (db !! (hash key `mod` size T)). }
  destruct Hsearch as [Hcol Hpro].
  unfold insert. pose proof (chaining_insert_spec key value T db Hn) as Hspec.
  cbv zeta in Hspec. fold chain in Hspec.
  repeat split; try done; try lia;
    rewrite Hspec; by destruct (filter _ chain) as [|x [|y l]].
Qed.

Lemma chaining_counters_witness :
  let T := Build_HashTable 2 "chaining" 0 0 in
  let db := (table_after (H := sum_codes) chaining 2
               [Insert "A" "1"; Insert "C" "2"]).2 in
  size T ≠ 0 ∧
  probes_count (insert (H := sum_codes) chaining "E" "3" (T, db)).2.1 = 1 ∧
  collisions_count (insert (H := sum_codes) chaining "E" "3" (T, db)).2.1 = 1 ∧
  probes_count (search (H := sum_codes) chaining "C" (T, db)).2.1 = 3.
Proof.
  intros T db.
  assert (Hn : size T ≠ 0) by (vm_compute; discriminate).
  destruct (chaining_counters (H := sum_codes) "E" "3" T db Hn)
    as (Hp & Hc & _).
  destruct (chaining_counters (H := sum_codes) "C" "3" T db Hn)
    as (_ & _ & _ & Hps & _).
  split; [exact Hn|]. split; [exact Hp|]. split.
  - etrans; [exact Hc|]. vm_compute. reflexivity.
  - etrans; [exact Hps|]. vm_compute. reflexivity.
Defined.

(** X13. A probing [insert], on any table and whatever its outcome, creates
    no row and deletes none, and writes at most one slot. *)
Theorem probing_insert_keeps_rows `{Hash} (s : strategy) (key value : string)
    (w : world) :
  probing s →
  (∀ i, is_Some ((insert s key value w).2.2 !! i) ↔ is_Some (w.2 !! i)) ∧
  ∃ p, ∀ i, i ≠ p → (insert s key value w).2.2 !! i = w.2 !! i.
Proof.
  intros Hs. destruct w as [T db].
  destruct (insert s key value (T, db)) as [[[]|e] w'] eqn:Hins.
  - apply insert_probing_returns in Hins
      as (_ & l1 & i & l2 & slot & _ & _ & _ & Hslot & _ & ->); [|done].
    cbn [snd]. split.
    + intros q. destruct (decide (q = candidate s (size T) key i)) as [->|Hq].
      * by rewrite lookup_insert_eq, Hslot.
      * by rewrite lookup_insert_ne.
    + exists (candidate s (size T) key i). intros q Hq.
      by rewrite lookup_insert_ne.
  - pose proof (insert_probing_raises s key value (T, db) e Hs) as Hsame.
    rewrite Hins in Hsame. cbn [fst snd] in *. rewrite Hsame by done.
    split; [done|]. by exists 0.
Qed.

Lemma probing_insert_keeps_rows_witness :
  let w := table_after (H := sum_codes) quadratic_probing 3 [Insert "A" "1"] in
  (is_Some ((insert (H := sum_codes) quadratic_probing "D" "2" w).2.2 !! 7)
   ↔ is_Some (w.2 !! 7)) ∧
  ∃ p, ∀ i, i ≠ p →
    (insert (H := sum_codes) quadratic_probing "D" "2" w).2.2 !! i = w.2 !! i.
Proof.
  intros w.
  destruct (probing_insert_keeps_rows (H := sum_codes) quadratic_probing
              "D" "2" w ltac:(discriminate)) as [Hrows Hone].
  split; [exact (Hrows 7)|exact Hone].
Defined.

(** X14. Constructing a table again over the store a constructor of the same
    strategy and size left changes nothing: the second construction returns
    the same table and the same store. *)
Theorem constructor_idempotent (s : strategy) (n : Z) (db : DB) :
  new s n (new s n db).2.2 = new s n db.
Proof.
  destruct (new_spec s n db) as (db1 & Hnew1 & Hdb1).
  destruct (new_spec s n db1) as (db2 & Hnew2 & Hdb2).
  rewrite Hnew1. cbn [snd]. rewrite Hnew2. do 2 f_equal.
  apply map_eq. intros i. rewrite Hdb2, Hdb1.
  by destruct (decide (0 ≤ i < n)).
Qed.

Lemma objects_ordered_range (db : DB) (n : Z) :
  (∀ i, is_Some (db !! i) ↔ 0 ≤ i < n) →
  objects_ordered db = (λ i, default empty_slot (db !! i)) <$> range n.
Proof.
  intros Hdom. apply list_eq. intros k. rewrite list_lookup_fmap.
  destruct (decide (Z.of_nat k < n)) as [Hk|Hk].
  - rewrite <- (Nat2Z.id k) at 1.
    rewrite (objects_ordered_lookup db n (Z.of_nat k) Hdom) by lia.
    unfold range. rewrite lookup_seqZ_lt by done. cbn.
    destruct (proj2 (Hdom (Z.of_nat k)) ltac:(lia)) as [slot Hslot].
    rewrite Z.add_0_l, Hslot. done.
  - unfold range at 1. rewrite lookup_seqZ_ge by lia. cbn.
    unfold objects_ordered. rewrite (slot_indices_range db n Hdom).
    rewrite omap_lookup_defined
      by (apply Forall_forall; intros i Hi%elem_of_range; by apply Hdom).
    unfold range. by rewrite lookup_seqZ_ge by lia.
Qed.

(** X15. [get_state] of a built table of positive size, of any strategy: it
    is a read (table and store are what they were); it reports the size, the
    name and the counters of the table; and its ["table"] has one entry for
    each slot, in the order of the indices 0, 1, ..., size - 1. *)
Theorem get_state_snapshot `{Hash} (s : strategy) (n : Z)
    (ops : list operation) :
  0 < n →
  let w := table_after s n ops in
  ∃ sd,
    get_state w = (Returns sd, w) ∧
    sd_size sd = n ∧
    sd_algorithm sd = algorithm_name s ∧
    sd_collisions_count sd = collisions_count w.1 ∧
    sd_probes_count sd = probes_count w.1 ∧
    sd_table sd =
      (λ i, slot_entry (algorithm_name s) (default empty_slot (w.2 !! i)))
        <$> range n.
Proof.
  intros Hn w.
  assert (Hinv : size w.1 = n ∧ algorithm_type w.1 = algorithm_name s ∧
                 ∀ i, is_Some (w.2 !! i) ↔ 0 ≤ i < n).
  { destruct (decide (s = chaining)) as [->|Hs].
    - pose proof (chaining_inv_table_after n ops) as (Hsize & Halg & Hdom & _).
      fold w in Hsize, Halg, Hdom. split; [done|]. split; [done|].
      by apply Hdom.
    - by destruct (table_inv_table_after s n ops Hs) as (? & ? & _ & ?). }
  destruct Hinv as (Hsize & Halg & Hdom). destruct w as [T db].
  cbn [fst snd] in *. eexists. split; [reflexivity|]. cbn.
  repeat split; try done.
  rewrite (objects_ordered_range db n Hdom), <- list_fmap_compose.
  by rewrite Halg.
Qed.

Lemma get_state_snapshot_witness :
  let w := table_after (H := sum_codes) linear_probing 3
             [Insert "A" "1"; Insert "D" "2"] in
  ∃ sd, get_state w = (Returns sd, w) ∧
        sd_table sd = [Probed (Some (Some "D", Some "2")); Probed None;
                       Probed (Some (Some "A", Some "1"))].
Proof.
  intros w.
  destruct (get_state_snapshot (H := sum_codes) linear_probing 3
              [Insert "A" "1"; Insert "D" "2"] ltac:(lia))
    as (sd & Hsd & _ & _ & _ & _ & Htable).
  exists sd. split; [exact Hsd|]. etrans; [exact Htable|].
  vm_compute. reflexivity.
Defined.

Lemma occupied_insert_new (db : DB) (p : Z) (slot slot' : HashTableSlot.t) :
  db !! p = Some slot →
  HashTableSlot.key_value slot = None →
  HashTableSlot.key_value slot' ≠ None →
  occupied (<[p := slot']> db) = S (occupied db).
Proof.
  intros Hslot Hfree Hocc. unfold occupied.
  rewrite <- (insert_delete_eq db p slot').
  rewrite map_to_list_insert by apply lookup_delete_eq.
  rewrite <- (map_to_list_delete db p slot Hslot).
  rewrite !filter_cons. cbn [snd].
  rewrite decide_True by done. rewrite decide_False; [done|].
  rewrite Hfree. by intros [].
Qed.

(** X16. When a probing [insert] of a key that no slot holds returns, the
    number of occupied slots is one more than before: the key is written in
    a slot that was empty. *)
Theorem insert_new_key_occupies_one `{Hash} (s : strategy)
    (key value : string) (w : world) :
  probing s →
  (∀ p slot, w.2 !! p = Some slot → HashTableSlot.key_value slot ≠ Some key) →
  (insert s key value w).1 = Returns tt →
  occupied (insert s key value w).2.2 = S (occupied w.2).
Proof.
  intros Hs Hnew Hins. destruct w as [T db].
  destruct (insert s key value (T, db)) as [r w'] eqn:Hrun.
  cbn [fst snd] in *. subst r.
  apply insert_probing_returns in Hrun
    as (_ & l1 & i & l2 & slot & _ & _ & _ & Hslot & Hk & ->); [|done].
  cbn [snd]. apply (occupied_insert_new db _ slot); [done| |done].
  destruct Hk as [Hk|Hk]; [done|]. by destruct (Hnew _ slot Hslot).
Qed.

Lemma insert_new_key_occupies_one_witness :
  let w := table_after (H := sum_codes) double_hashing 5 [Insert "A" "1"] in
  occupied w.2 = 1%nat ∧
  occupied (insert (H := sum_codes) double_hashing "F" "2" w).2.2 = 2%nat.
Proof.
  intros w.
  assert (Hocc : occupied w.2 = 1%nat) by (vm_compute; reflexivity).
  split; [exact Hocc|]. rewrite <- Hocc.
  apply (insert_new_key_occupies_one (H := sum_codes) double_hashing "F" "2" w).
  - discriminate.
  - intros p slot Hslot.
    assert (Hp : ∀ q, 0 ≤ q < 5 →
              ∀ slot', w.2 !! q = Some slot' →
                       HashTableSlot.key_value slot' ≠ Some "F").
    { intros q Hq slot' Hq'.
      assert (q = 0 ∨ q = 1 ∨ q = 2 ∨ q = 3 ∨ q = 4) as Hcases by lia.
      destruct Hcases as [->|[->|[->|[->| ->]]]];
        vm_compute in Hq'; injection Hq' as <-; discriminate. }
    destruct (table_inv_table_after (H := sum_codes) double_hashing 5
                [Insert "A" "1"] ltac:(discriminate)) as (_ & _ & _ & Hdom).
    apply (Hp p); [|done]. apply Hdom. by exists slot.
  - vm_compute. reflexivity.
Defined.

(** X17. On a new table, of any strategy and of a size for which the hashes
    are defined and that is positive, [search] of any key returns [None]
    with [probes_count = 1] and [collisions_count = 0], and writes
    nothing. *)
Theorem search_new_table `{Hash} (s : strategy) (n : Z) (key : string) :
  0 < n → hashes_defined s n →
  let w := (new s n ∅).2 in
  search s key w = (Returns None, (with_stats w.1 0 1, w.2)).
Proof.
  intros Hn Hd. destruct (new_spec s n ∅) as (db & -> & Hdb). cbn [snd fst].
  assert (Hrow : ∀ i, 0 ≤ i < n → db !! i = Some empty_slot).
  { intros i Hi. by rewrite Hdb, decide_True, lookup_empty. }
  destruct (decide (s = chaining)) as [->|Hs].
  - unfold search. rewrite chaining_search_spec by (cbn; lia). cbn [size].
    rewrite Hrow by (apply Z.mod_pos_bound; lia). reflexivity.
  - rewrite search_probing by done. cbn [size].
    unfold range. rewrite seqZ_cons by lia. cbn [for_in].
    rewrite bind_unfold.
    rewrite (search_at_not_other key); cbn [snd].
    + by rewrite Hrow by (apply candidate_range; lia).
    + unfold other_key. by rewrite Hrow by (apply candidate_range; lia).
Qed.

Lemma search_new_table_witness :
  let w := (new double_hashing 10 ∅).2 in
  search (H := sum_codes) double_hashing "A" w =
  (Returns None, (with_stats w.1 0 1, w.2)).
Proof.
  apply (search_new_table (H := sum_codes) double_hashing 10 "A"); [lia|].
  split; [lia|intros _; lia].
Defined.

(** ** Further properties: the views *)

Lemma get_state_returns (w : world) :
  ∃ sd, get_state w = (Returns sd, w) ∧
        sd_collisions_count sd = collisions_count w.1 ∧
        sd_probes_count sd = probes_count w.1.
Proof. destruct w as [T db]. by eexists. Qed.

Lemma set_table_eq (s : strategy) (w : world) (tables : strategy → world) :
  set_table s w tables s = w.
Proof. unfold set_table. by rewrite decide_True. Qed.

Lemma set_table_ne (s s' : strategy) (w : world) (tables : strategy → world) :
  s' ≠ s → set_table s w tables s' = tables s'.
Proof. intros Hne. unfold set_table. by rewrite decide_False. Qed.

Lemma truthy_Some (k : option string) :
  truthy k = true → ∃ key, k = Some key ∧ key ≠ "".
Proof.
  destruct k as [key|]; [|done]. cbn. intros Hk. exists key. split; [done|].
  intros ->. done.
Qed.

Lemma get_state_state_of (w : world) :
  get_state w = (Returns (state_of w), w).
Proof. by destruct w. Qed.

Section views_properties.
Context `{Hash} `{Runtime}.

(** What [post] does with an insert that it passes on to the table. *)
Lemma post_insert (algorithm_type : string) (s : strategy)
    (key value : string) (sys : system) :
  get_hashing_table algorithm_type = Some s → key ≠ "" →
  HashingOperationView_post algorithm_type
    (Build_request_data (Some key) (Some value) (Some "insert")) sys =
  let call := insert s key value (_hashing_tables sys s) in
  (Returns
     (match call.1 with
      | Returns _ =>
          Build_Response
            (OperationData
               ("'" +:+ key +:+ "':'" +:+ value +:+
                "' insertado/actualizado con " +:+ algorithm_type +:+ ".")
               (Some "success") (state_of call.2)) 200
      | Raises e =>
          Build_Response
            (ErrorData ("Error en la operación de hashing: " +:+ str_exn e))
            500
      end),
   Build_system (set_table s call.2 (_hashing_tables sys))
     (save_log_to_db algorithm_type "insert" key (Some value)
        (match call.1 with
         | Returns _ => "success"
         | Raises e => "Error: " +:+ str_exn e
         end) (state_of call.2) (logs sys))).
Proof.
  intros Hs Hne. unfold HashingOperationView_post. rewrite Hs.
  cbn [rq_key rq_value rq_operation truthy].
  assert (negb (key =? "")%string = true) as ->
    by by apply negb_true_iff, String.eqb_neq.
  cbn [negb orb default String.eqb Ascii.eqb Bool.eqb]. rewrite decide_True by done.
  cbv zeta. unfold id.
  destruct (insert s key value (_hashing_tables sys s)) as [[r|e] w];
    cbn [fst snd]; unfold post_success, post_except;
    by rewrite get_state_state_of.
Qed.

(** What [post] does with a search that it passes on to the table. *)
Lemma post_search (algorithm_type : string) (s : strategy) (key : string)
    (value : option string) (sys : system) :
  get_hashing_table algorithm_type = Some s → key ≠ "" →
  HashingOperationView_post algorithm_type
    (Build_request_data (Some key) value (Some "search")) sys =
  let call := search s key (_hashing_tables sys s) in
  (Returns
     (match call.1 with
      | Returns r =>
          Build_Response
            (OperationData
               ("Búsqueda de '" +:+ key +:+ "' en " +:+ algorithm_type +:+ ".")
               r (state_of call.2)) 200
      | Raises e =>
          Build_Response
            (ErrorData ("Error en la operación de hashing: " +:+ str_exn e))
            500
      end),
   Build_system (set_table s call.2 (_hashing_tables sys))
     (save_log_to_db algorithm_type "search" key value
        (match call.1 with
         | Returns r => str_result r
         | Raises e => "Error: " +:+ str_exn e
         end) (state_of call.2) (logs sys))).
Proof.
  intros Hs Hne. unfold HashingOperationView_post. rewrite Hs.
  cbn [rq_key rq_value rq_operation truthy].
  assert (negb (key =? "")%string = true) as ->
    by by apply negb_true_iff, String.eqb_neq.
  cbn [negb orb default String.eqb Ascii.eqb Bool.eqb].
  rewrite decide_False by done. rewrite decide_True by done.
  cbv zeta. unfold id.
  destruct (search s key (_hashing_tables sys s)) as [[r|e] w];
    cbn [fst snd]; unfold post_success, post_except;
    by rewrite get_state_state_of.
Qed.

(** The requests that [post] passes on to the table. *)
Lemma well_formed_cases (algorithm_type : string) (request : request_data) :
  well_formed algorithm_type request →
  ∃ s key,
    get_hashing_table algorithm_type = Some s ∧ key ≠ "" ∧
    ((∃ v, request = Build_request_data (Some key) v (Some "search")) ∨
     ∃ value, request = Build_request_data (Some key) (Some value)
                          (Some "insert")).
Proof.
  intros ([s Hs] & (key & Hkey & Hne)%truthy_Some & Hop).
  exists s, key. split; [done|]. split; [done|].
  destruct request as [k v op]. cbn [rq_key rq_value rq_operation] in *.
  subst k. destruct Hop as [-> |[-> [value ->]]]; [left; by exists v|right].
  by exists value.
Qed.

(** What [post] does with any other request. *)
Lemma post_not_well_formed (algorithm_type : string) (request : request_data)
    (sys : system) :
  ¬ well_formed algorithm_type request →
  ∃ error,
    HashingOperationView_post algorithm_type request sys =
    (Returns (Build_Response (ErrorData error) 400), sys).
Proof.
  intros Hbad. unfold HashingOperationView_post.
  destruct (get_hashing_table algorithm_type) as [s|] eqn:Hs;
    [|by eexists].
  destruct (truthy (rq_key request)) eqn:Hkey; [|by eexists].
  cbn [negb orb].
  destruct (truthy (rq_operation request)) eqn:Hop; [|by eexists].
  cbn [negb].
  apply truthy_Some in Hop as (op & Hop & _). rewrite Hop. cbn [default].
  unfold id.
  destruct (decide (op = "insert")) as [->|Hins].
  - destruct (rq_value request) as [v|] eqn:Hv; [|by eexists].
    destruct Hbad. split; [by eexists|]. split; [done|]. right.
    split; [done|]. by rewrite Hv.
  - destruct (decide (op = "search")) as [->|Hsea]; [|by eexists].
    destruct Hbad. split; [by eexists|]. split; [done|]. by left.
Qed.

End views_properties.

Section served_systems.
Context `{Hash} `{Runtime}.


Lemma served_initial : served initial_system.
Proof. intros s. by exists []. Qed.

Lemma served_set_table (sys : system) (s : strategy) (o : operation)
    (log : list HashingLog.t) :
  served sys → inserts "" o = false →
  served (Build_system
            (set_table s (run_operation s o (_hashing_tables sys s))
               (_hashing_tables sys)) log).
Proof.
  intros Hsys Ho s'. cbn [_hashing_tables].
  destruct (Hsys s') as (ops & Hops & Hno).
  destruct (decide (s' = s)) as [->|Hne].
  - rewrite set_table_eq. exists (ops ++ [o]).
    rewrite Hops, table_after_snoc. split; [done|].
    rewrite existsb_app, Hno. cbn. by rewrite Ho.
  - rewrite set_table_ne by done. by exists ops.
Qed.

Lemma served_serve (rq : http_request) (sys : system) :
  served sys → served (serve rq sys).2.
Proof.
  intros Hsys. destruct rq as [alg request|alg|alg]; cbn [serve].
  - destruct (decide (well_formed alg request)) as [Hwf|Hwf].
    + destruct (well_formed_cases alg request Hwf)
        as (s & key & Hs & Hne & [[v ->]|[value ->]]).
      * rewrite (post_search alg s key v sys Hs Hne). cbv zeta. cbn [snd].
        apply (served_set_table sys s (Search key)); done.
      * rewrite (post_insert alg s key value sys Hs Hne). cbv zeta. cbn [snd].
        apply (served_set_table sys s (Insert key value)); [done|].
        cbn. by apply bool_decide_eq_false.
    + by destruct (post_not_well_formed alg request sys Hwf) as (error & ->).
  - unfold HashingStateView_get.
    destruct (get_hashing_table alg) as [s|]; [|done].
    rewrite get_state_state_of. cbn [snd]. intros s'. cbn [_hashing_tables].
    destruct (decide (s' = s)) as [->|Hne];
      [rewrite set_table_eq|rewrite set_table_ne by done]; apply Hsys.
  - unfold ResetHashingStateView_post.
    destruct (decide (alg = "all")); [intros s; by exists []|].
    destruct (get_hashing_table alg) as [s|]; [|done].
    cbn [snd]. intros s'. cbn [_hashing_tables].
    destruct (decide (s' = s)) as [->|Hne].
    + rewrite set_table_eq. by exists [].
    + rewrite set_table_ne by done. apply Hsys.
Qed.

Lemma served_system_after (rqs : list http_request) :
  served (system_after rqs).
Proof.
  unfold system_after. generalize served_initial.
  generalize initial_system. induction rqs as [|rq rqs IH]; intros sys Hsys;
    [done|].
  cbn [foldl]. by apply IH, served_serve.
Qed.

(** A key that a slot of a built probing table holds was inserted. *)
Lemma stored_key_inserted (s : strategy) (n : Z) (ops : list operation)
    (p : Z) (slot : HashTableSlot.t) (key : string) :
  probing s →
  (table_after s n ops).2 !! p = Some slot →
  HashTableSlot.key_value slot = Some key →
  existsb (inserts key) ops = true.
Proof.
  intros Hs. revert p slot.
  induction ops as [|o ops IH] using rev_ind; intros p slot Hslot Hk.
  - exfalso. unfold table_after in Hslot. cbn [run foldl] in Hslot.
    destruct (new_spec s n ∅) as (db & Hnew & Hdb). rewrite Hnew in Hslot.
    cbn [snd] in Hslot. rewrite Hdb, lookup_empty in Hslot.
    destruct (decide (0 ≤ p < n)); [|done]. by injection Hslot as <-.
  - rewrite existsb_app. apply orb_true_iff.
    rewrite <- table_after_snoc in Hslot.
    destruct o as [k v|k]; unfold run_operation in Hslot.
    + destruct (table_after s n ops) as [T db] eqn:Hw.
      destruct (insert s k v (T, db)) as [[[]|e] w'] eqn:Hins.
      * apply insert_probing_returns in Hins
          as (_ & l1 & i & l2 & slot0 & _ & _ & _ & Hslot0 & _ & ->); [|done].
        cbn [snd] in Hslot.
        destruct (decide (p = candidate s (size T) k i)) as [->|Hp].
        -- rewrite lookup_insert_eq in Hslot. injection Hslot as <-.
           cbn in Hk. injection Hk as ->. right. cbn.
           by rewrite bool_decide_eq_true_2.
        -- rewrite lookup_insert_ne in Hslot by done. left.
           by apply (IH p slot).
      * pose proof (insert_probing_raises s k v (T, db) e Hs) as Hsame.
        rewrite Hins in Hsame. cbn [fst snd] in *.
        rewrite Hsame in Hslot by done. left. by apply (IH p slot).
    + destruct (search_reads s k (table_after s n ops)) as (r & q & Hrun).
      rewrite Hrun in Hslot. cbn [snd] in Hslot. left. by apply (IH p slot).
Qed.

End served_systems.







(** X21. After any requests to the views, no slot of a probing table holds
    the empty string as its key ([post] refuses it), so the state that
    [HashingStateView.get] answers hides no entry: it has [TABLE_SIZE]
    entries, and the entry of a slot is [None] exactly when the slot is
    empty. *)
Theorem served_state_shows_every_entry `{Hash} `{Runtime}
    (rqs : list http_request) (algorithm_type : string) (s : strategy) :
  get_hashing_table algorithm_type = Some s → probing s →
  let sys := system_after rqs in
  ∃ sd,
    (HashingStateView_get algorithm_type sys).1 =
      Returns (Build_Response (StateData sd) 200) ∧
    length (sd_table sd) = Z.to_nat TABLE_SIZE ∧
    ∀ p slot,
      (_hashing_tables sys s).2 !! p = Some slot →
      HashTableSlot.key_value slot ≠ Some "" ∧
      (sd_table sd !! Z.to_nat p = Some (Probed None) ↔
       HashTableSlot.key_value slot = None).
Proof.
  intros Hs Hprobing sys.
  destruct (served_system_after rqs s) as (ops & Hops & Hno).
  fold sys in Hops.
  destruct (table_inv_table_after s TABLE_SIZE ops Hprobing)
    as (_ & Halg & _ & Hdom).
  rewrite <- Hops in Halg, Hdom.
  exists (state_of (_hashing_tables sys s)). split.
  { unfold HashingStateView_get. rewrite Hs. by rewrite get_state_state_of. }
  split.
  { cbn [state_of sd_table]. rewrite length_fmap.
    rewrite (objects_ordered_range _ TABLE_SIZE Hdom), length_fmap.
    unfold range. by rewrite length_seqZ. }
  intros p slot Hslot.
  assert (Hkey : HashTableSlot.key_value slot ≠ Some "").
  { intros Hk. rewrite Hops in Hslot.
    pose proof (stored_key_inserted s TABLE_SIZE ops p slot "" Hprobing
                  Hslot Hk) as Hin.
    congruence. }
  split; [done|].
  destruct (_hashing_tables sys s) as [T db] eqn:Hw. cbn [fst snd] in *.
  destruct (get_state_entry T db TABLE_SIZE p slot Hdom Hslot)
    as (sd & Hsd & _ & _ & Hentry).
  assert (sd = state_of (T, db)) as ->.
  { rewrite get_state_state_of in Hsd. by injection Hsd. }
  rewrite Hentry. unfold slot_entry.
  rewrite Halg, decide_False by (by destruct s).
  destruct (HashTableSlot.key_value slot) as [k|] eqn:Hk; cbn [truthy].
  - destruct (String.eqb_spec k "") as [->|Hne]; [done|]. cbn [negb].
    split; [by intros [= ?]|done].
  - done.
Qed.

Lemma served_state_shows_every_entry_witness :
  let rqs := [PostOperation "quadratic_probing" (insert_request "A" "1");
              PostOperation "quadratic_probing" (insert_request "" "2")] in
  let sys := system_after (H := sum_codes) (H0 := example_runtime) rqs in
  ∃ sd,
    (HashingStateView_get "quadratic_probing" sys).1 =
      Returns (Build_Response (StateData sd) 200) ∧
    length (sd_table sd) = 10%nat.
Proof.
  intros rqs sys.
  destruct (served_state_shows_every_entry (H := sum_codes)
              (H0 := example_runtime) rqs "quadratic_probing"
              quadratic_probing eq_refl ltac:(discriminate))
    as (sd & Hsd & Hlen & _).
  exists sd. split; [exact Hsd|exact Hlen].
Defined.



(** X23. [ResetHashingStateView.post]: for an algorithm of
    [_hashing_tables] it answers 200 and leaves that table new, with
    [TABLE_SIZE] empty slots and the counters at 0, the other tables and the
    log as they were; for ["all"] it leaves the four tables new; for any
    other name it answers 400 and changes nothing. A search on the table
    just reset finds no key. *)
Theorem reset_gives_new_table `{Hash} (algorithm_type : string)
    (sys : system) :
  let r := ResetHashingStateView_post algorithm_type sys in
  logs r.2 = logs sys ∧
  (∀ s, get_hashing_table algorithm_type = Some s →
        (∃ message, r.1 = Returns (Build_Response (MessageData message) 200)) ∧
        _hashing_tables r.2 s = (new s TABLE_SIZE ∅).2 ∧
        collisions_count (_hashing_tables r.2 s).1 = 0 ∧
        probes_count (_hashing_tables r.2 s).1 = 0 ∧
        objects_ordered (_hashing_tables r.2 s).2
          = replicate (Z.to_nat TABLE_SIZE) empty_slot ∧
        (∀ key, (search s key (_hashing_tables r.2 s)).1 = Returns None) ∧
        ∀ s', s' ≠ s → _hashing_tables r.2 s' = _hashing_tables sys s') ∧
  (algorithm_type = "all" →
   ∀ s, _hashing_tables r.2 s = (new s TABLE_SIZE ∅).2) ∧
  (algorithm_type ≠ "all" → get_hashing_table algorithm_type = None →
   ∃ error, r = (Returns (Build_Response (ErrorData error) 400), sys)).
Proof.
  cbv zeta. unfold ResetHashingStateView_post.
  destruct (decide (algorithm_type = "all")) as [->|Hall].
  - split; [done|]. split; [intros s Hs; by vm_compute in Hs|].
    split; [done|]. done.
  - split; [by destruct (get_hashing_table algorithm_type)|].
    split; [|split; [done|]].
    + intros s Hs. rewrite Hs. cbn [fst snd _hashing_tables].
      rewrite set_table_eq. split; [by eexists|]. split; [done|].
      destruct (new_spec s TABLE_SIZE ∅) as (db & Hnew & Hdb).
      rewrite Hnew. cbn [fst snd collisions_count probes_count].
      split; [done|]. split; [done|].
      assert (Hrow : ∀ i, db !! i = if decide (0 ≤ i < TABLE_SIZE)
                                    then Some empty_slot else None).
      { intros i. rewrite Hdb, lookup_empty.
        by destruct (decide (0 ≤ i < TABLE_SIZE)). }
      assert (Hdom : ∀ i, is_Some (db !! i) ↔ 0 ≤ i < TABLE_SIZE).
      { intros i. rewrite Hrow.
        destruct (decide (0 ≤ i < TABLE_SIZE)); split; done. }
      split; [|split].
      * rewrite (objects_ordered_range db TABLE_SIZE Hdom).
        apply list_eq. intros k. rewrite list_lookup_fmap.
        destruct (decide (Z.of_nat k < TABLE_SIZE)) as [Hk|Hk].
        -- unfold range. rewrite lookup_seqZ_lt by done. cbn [fmap option_fmap option_map].
           rewrite Hrow, decide_True by lia. cbn.
           symmetry. apply lookup_replicate_2. lia.
        -- unfold range. rewrite lookup_seqZ_ge by lia. cbn.
           symmetry. apply lookup_replicate_None. lia.
      * intros key.
        pose proof (search_built_table s TABLE_SIZE [] key) as Hsearch.
        cbv zeta in Hsearch. unfold table_after in Hsearch.
        cbn [run foldl] in Hsearch. rewrite Hnew in Hsearch.
        cbn [fst snd] in Hsearch.
        rewrite decide_True in Hsearch
          by (split; [done|by intros _]).
        destruct Hsearch as (r & j & -> & _ & Hr). cbn [fst]. f_equal.
        destruct r as [v|]; [|done]. exfalso.
        destruct (proj1 (Hr v) eq_refl) as (p & slot & Hslot & Hheld).
        rewrite Hrow in Hslot. destruct (decide (0 ≤ p < TABLE_SIZE)); [|done].
        injection Hslot as <-. destruct s; cbn in Hheld;
          [by apply not_elem_of_nil in Hheld|by destruct Hheld..].
      * intros s' Hs'. by rewrite set_table_ne.
    + intros _ ->. by eexists.
Qed.

Lemma reset_gives_new_table_witness :
  let sys := system_after (H := sum_codes) (H0 := example_runtime)
               [PostOperation "chaining" (insert_request "A" "1")] in
  let r := ResetHashingStateView_post "chaining" sys in
  get_hashing_table "chaining" = Some chaining ∧
  _hashing_tables r.2 chaining = (new chaining TABLE_SIZE ∅).2 ∧
  (search (H := sum_codes) chaining "A" (_hashing_tables r.2 chaining)).1
    = Returns None.
Proof.
  intros sys r.
  destruct (reset_gives_new_table (H := sum_codes) "chaining" sys)
    as (_ & Hreset & _).
  destruct (Hreset chaining eq_refl) as (_ & Hnew & _ & _ & _ & Hsearch & _).
  split; [reflexivity|]. split; [exact Hnew|exact (Hsearch "A")].
Defined.
